(** * dolfinx.la: the Python linear-algebra layer

    A shallow embedding of [python/dolfinx/la/__init__.py]: the wrapper
    classes [Vector] and [MatrixCSR], the factory functions [matrix_csr]
    and [vector], and the parts of NumPy and of the native library
    ([dolfinx.cpp.la]) that these call into. *)

From Stdlib Require Import ZArith Lia Floats.
From stdpp Require Import base decidable option list numbers.

(** ** Scalars

    The native containers are templated over the scalar type.  The model
    is parametric in the scalar carrier and its operations; no algebraic
    law is assumed of them, since floating-point addition is neither
    associative nor has zero as a neutral element for every value. *)

Class Scalar (T : Type) := {
  szero : T;
  sadd : T → T → T;
  smul : T → T → T;
  snormsq : T → T;
}.

#[global] Instance Z_scalar : Scalar Z :=
  {| szero := 0%Z; sadd := Z.add; smul := Z.mul; snormsq := λ x, (x * x)%Z |}.

(** [numpy.float64]: IEEE 754 binary64 numbers and their rounded
    operations. *)
#[global] Instance float64_scalar : Scalar float :=
  {| szero := 0%float; sadd := PrimFloat.add; smul := PrimFloat.mul;
     snormsq := λ x, (x * x)%float |}.

(** Sum of a list of scalars: accumulated from zero, first to last, as
    a loop does. *)
Definition ssum {T} `{Scalar T} (l : list T) : T := foldl sadd szero l.

(** ** NumPy: the scalar type hierarchy and [issubdtype] *)

Module np.

(** The classes under [numpy.generic] (LP64 platform, where [int64] is
    the C [long] and [longlong] is a class of its own). *)
Inductive scalar_type :=
| generic | bool_ | number | integer | signedinteger | unsignedinteger
| int8 | int16 | int32 | int64 | longlong
| uint8 | uint16 | uint32 | uint64 | ulonglong
| inexact | floating | complexfloating
| float16 | float32 | float64 | longdouble
| complex64 | complex128 | clongdouble
| flexible | character | bytes_ | str_ | void
| datetime64 | timedelta64 | object_.

#[global] Instance scalar_type_eq_dec : EqDecision scalar_type.
Proof. solve_decision. Defined.

(** The direct base class of each scalar class. *)
Definition base (c : scalar_type) : option scalar_type :=
  match c with
  | generic => None
  | bool_ | number | flexible | datetime64 | object_ => Some generic
  | integer | inexact => Some number
  | signedinteger | unsignedinteger => Some integer
  | int8 | int16 | int32 | int64 | longlong | timedelta64 => Some signedinteger
  | uint8 | uint16 | uint32 | uint64 | ulonglong => Some unsignedinteger
  | floating | complexfloating => Some inexact
  | float16 | float32 | float64 | longdouble => Some floating
  | complex64 | complex128 | clongdouble => Some complexfloating
  | character | void => Some flexible
  | bytes_ | str_ => Some character
  end.

(** [c] followed by its ancestors; the hierarchy is five levels deep. *)
Fixpoint ancestors (fuel : nat) (c : scalar_type) : list scalar_type :=
  c :: match fuel with
       | O => []
       | S fuel' => match base c with
                    | Some p => ancestors fuel' p
                    | None => []
                    end
       end.

Definition issubclass (c1 c2 : scalar_type) : bool :=
  bool_decide (c2 ∈ ancestors 5 c1).

(** What the module accepts as [dtype] ([numpy.typing.DTypeLike]): a
    scalar class, a [numpy.dtype] instance, one of the Python types
    NumPy converts, or [None]. *)
Inductive DTypeLike :=
| type_ (c : scalar_type)
| dtype_ (c : scalar_type)
| py_float | py_complex | py_int | py_bool
| py_str | py_bytes | py_object | py_None.

(** The class [issubdtype] compares: the argument itself when it is a
    scalar class, otherwise [numpy.dtype(arg).type]. *)
Definition as_class (arg : DTypeLike) : scalar_type :=
  match arg with
  | type_ c | dtype_ c => c
  | py_float | py_None => float64
  | py_complex => complex128
  | py_int => int64
  | py_bool => bool_
  | py_str => str_
  | py_bytes => bytes_
  | py_object => object_
  end.

(** [numpy.issubdtype(arg1, arg2)], for a scalar class [arg2]. *)
Definition issubdtype (arg1 : DTypeLike) (arg2 : scalar_type) : bool :=
  issubclass (as_class arg1) arg2.

(** 64-bit two's complement wrap-around of [numpy.int64] arithmetic. *)
Definition wrap64 (z : Z) : Z := ((z + 2 ^ 63) mod 2 ^ 64 - 2 ^ 63)%Z.

End np.

(** ** Python: exceptions and results *)

Inductive exception :=
| NotImplementedError (dtype : np.DTypeLike)   (* f"Type {dtype} not supported." *)
| AssertionError
| IndexError
| ValueError
| RuntimeError.

Inductive result (A : Type) :=
| Ok (a : A)
| Raise (e : exception).
Arguments Ok {A} a.
Arguments Raise {A} e.

#[global] Instance result_ret : MRet result := λ A a, Ok a.
#[global] Instance result_bind : MBind result := λ A B f m,
  match m with Ok a => f a | Raise e => Raise e end.

(** ** NumPy arrays: indexing, slicing and reshaping of one-dimensional
    arrays, as the module uses them. *)

Module ndarray.

(** [a[i]]: a negative index counts from the end, an index outside
    [-len, len) raises [IndexError]. *)
Definition getitem {A} (a : list A) (i : Z) : result A :=
  let n := Z.of_nat (length a) in
  let j := if (i <? 0)%Z then (n + i)%Z else i in
  if ((0 <=? j) && (j <? n))%Z then
    match a !! Z.to_nat j with Some x => Ok x | None => Raise IndexError end
  else Raise IndexError.

(** [a[:k]]: a negative bound counts from the end, bounds are clipped. *)
Definition slice_to {A} (a : list A) (k : Z) : list A :=
  if (k <? 0)%Z then take (Z.to_nat (Z.of_nat (length a) + k)) a
  else take (Z.to_nat k) a.

(** [n] consecutive chunks of [k] elements. *)
Fixpoint chunks {A} (k n : nat) (a : list A) : list (list A) :=
  match n with
  | O => []
  | S n' => take k a :: chunks k n' (drop k a)
  end.

(** [a.reshape(-1, d0, d1)]: the array cut into blocks of [d0] rows of
    [d1] scalars; [ValueError] unless the leading dimension can be
    inferred, that is [d0 * d1] is positive and divides the size. *)
Definition reshape3 {A} (a : list A) (d0 d1 : Z) : result (list (list (list A))) :=
  if ((0 <? d0) && (0 <? d1) && (Z.of_nat (length a) mod (d0 * d1) =? 0))%Z then
    let b := (Z.to_nat d0 * Z.to_nat d1)%nat in
    Ok (chunks (Z.to_nat d1) (Z.to_nat d0) <$> chunks b (length a / b) a)
  else Raise ValueError.

End ndarray.

(** ** SciPy: the two sparse matrix classes [to_scipy] builds, each from
    [(data, indices, indptr)] and a shape.  The constructors are taken
    to store what they are given; the checks SciPy runs on its
    arguments are not part of the model. *)

Module scipy.

Inductive spmatrix (T : Type) :=
| csr_matrix (data : list T) (indices indptr : list Z) (shape : Z * Z)
| bsr_matrix (data : list (list (list T))) (indices indptr : list Z) (shape : Z * Z).
Arguments csr_matrix {T} data indices indptr shape.
Arguments bsr_matrix {T} data indices indptr shape.

Definition shape {T} (m : spmatrix T) : Z * Z :=
  match m with csr_matrix _ _ _ s | bsr_matrix _ _ _ s => s end.
Definition indices {T} (m : spmatrix T) : list Z :=
  match m with csr_matrix _ i _ _ | bsr_matrix _ i _ _ => i end.
Definition indptr {T} (m : spmatrix T) : list Z :=
  match m with csr_matrix _ _ p _ | bsr_matrix _ _ p _ => p end.
(** The stored scalars in storage order. *)
Definition values {T} (m : spmatrix T) : list T :=
  match m with
  | csr_matrix d _ _ _ => d
  | bsr_matrix d _ _ _ => concat (concat d)
  end.
End scipy.

(** ** The native library ([dolfinx.cpp])

    The classes of [dolfinx.cpp.la] and [dolfinx.cpp.common] are not part
    of the Python sources; the Python layer only holds them and forwards
    to them.  Everything in this module is modelled from the
    specification of the library (data model, ghost exchange, vector
    and matrix operations); the comments of the classes and operations
    say from which part.  A distributed object is the list of its
    per-rank parts, rank [p] at position [p]; a collective operation
    maps the whole list.  Scalars are exact: the carrier is any type
    with the operations of [Scalar]. *)

Module cpp.

Inductive BlockMode := compact | expanded.
Inductive InsertMode := add | insert.

Module IndexMap.

(** Modelled from the spec: the IndexMap class (native, not in the
    sources).  [size_local] entries are owned, local indices
    [size_local ..] are ghosts; [ghosts] is the local-to-global table of
    the ghosts and [owners] the owning rank of each. *)
Record t := { size_local : nat; ghosts : list nat; owners : list nat }.

#[global] Instance eq_dec : EqDecision t.
Proof. solve_decision. Defined.

Definition num_ghosts (m : t) : nat := length (ghosts m).

(** Modelled from the spec: global indices are unique and each is owned
    by exactly one rank (the ownership layout itself is native); rank
    [p] owns the contiguous global range starting at [offset maps p]. *)
Definition offset (maps : list t) (p : nat) : nat :=
  sum_list (size_local <$> take p maps).

(** Local index, on its owner [p], of the global index [g]. *)
Definition local_of (maps : list t) (p g : nat) : nat := g - offset maps p.

(** Global index of the local index [j] of rank [p]. *)
Definition global_of (maps : list t) (p : nat) (m : t) (j : nat) : nat :=
  if decide (j < size_local m) then offset maps p + j
  else default 0 (ghosts m !! (j - size_local m)).

(** The ghosts of a map, numbered: (ghost number, global index, owner). *)
Definition ghost_table (m : t) : list (nat * (nat * nat)) :=
  imap pair (zip (ghosts m) (owners m)).

(** The map of the scalar entries of a blocked map (block size [b]). *)
Definition expand (b : nat) (m : t) : t :=
  {| size_local := b * size_local m;
     ghosts := g ← ghosts m; (λ k, g * b + k) <$> seq 0 b;
     owners := p ← owners m; replicate b p |}.

End IndexMap.

Module SparsityPattern.

(** Modelled from the spec: the finalized SparsityPattern (native, not
    in the sources): the two index maps, the block sizes, and for every
    local row (owned rows first, then ghost rows) its local column
    indices. *)
Record t := {
  index_map : IndexMap.t;
  column_index_map : IndexMap.t;
  block_size : nat * nat;
  graph : list (list nat);
}.

(** Modelled from the spec: the invariant of a finalized pattern.  The
    block sizes are positive, there is one row per local row of the row
    map, every column is a local column of the column map, and the
    number of scalars to store fits a 64-bit integer. *)
Record wf (sp : t) : Prop := {
  wf_block_size : 0 < (block_size sp).1 ∧ 0 < (block_size sp).2;
  wf_rows :
    length (graph sp) =
      IndexMap.size_local (index_map sp) + IndexMap.num_ghosts (index_map sp);
  wf_columns :
    Forall (Forall (λ c, c < IndexMap.size_local (column_index_map sp) +
                             IndexMap.num_ghosts (column_index_map sp)))
      (graph sp);
  wf_size :
    (Z.of_nat (length (concat (graph sp)) * ((block_size sp).1 * (block_size sp).2))
       < 2 ^ 63)%Z;
}.

End SparsityPattern.

(** Updates of an array in place: each update [(i, v)] combines the
    stored entry [i] with [v]; they are applied first to last. *)
Definition apply_updates {T} (op : T → T → T) (ups : list (nat * T)) (a : list T) : list T :=
  foldl (λ acc u, alter (λ y, op y u.2) u.1 acc) a ups.

Module Vector.

(** Modelled from the spec: the DistributedVector (native class
    Vector_<scalar>, not in the sources): index map, block size and the
    local array, owned entries first, then ghosts, [bs] scalars each. *)
Record t (T : Type) := { index_map : IndexMap.t; bs : nat; array : list T }.
Arguments index_map {T} _.
Arguments bs {T} _.
Arguments array {T} _.

Section ops.
Context {T : Type} `{Scalar T}.

Definition with_array (v : t T) (a : list T) : t T :=
  {| index_map := index_map v; bs := bs v; array := a |}.

(** Modelled from the spec: [create(index_map, block_size, dtype)], all
    entries zero. *)
Definition create (m : IndexMap.t) (b : nat) : t T :=
  {| index_map := m; bs := b;
     array := replicate (b * (IndexMap.size_local m + IndexMap.num_ghosts m)) szero |}.

(** Number of owned scalars, and the owned part of the local array. *)
Definition owned_size (v : t T) : nat := bs v * IndexMap.size_local (index_map v).
Definition owned (v : t T) : list T := take (owned_size v) (array v).

(** Modelled from the spec: the invariant of a DistributedVector, a
    local array of [block_size * (size_local + num_ghosts)] scalars. *)
Definition wf (v : t T) : Prop :=
  length (array v) =
    bs v * (IndexMap.size_local (index_map v) + IndexMap.num_ghosts (index_map v)).

(** The owner's current value for position [j] of the local array of
    [v], when [j] lies in a ghost block. *)
Definition ghost_source (comm : list (t T)) (v : t T) (j : nat) : option T :=
  if decide (j < owned_size v) then None
  else
    let k := (j - owned_size v) / bs v in
    let c := (j - owned_size v) mod bs v in
    g ← IndexMap.ghosts (index_map v) !! k;
    p ← IndexMap.owners (index_map v) !! k;
    w ← comm !! p;
    array w !! (bs v * IndexMap.local_of (index_map <$> comm) p g + c).

(** One rank's part after a forward scatter: every ghost entry holds its
    owner's current value, owned entries are not written. *)
Definition forwarded (comm : list (t T)) (v : t T) : t T :=
  with_array v (imap (λ j x, default x (ghost_source comm v j)) (array v)).

(** Modelled from the spec: [scatter_forward] (collective): every ghost
    entry is overwritten with its owner's current value. *)
Definition scatter_forward (comm : list (t T)) : list (t T) :=
  forwarded comm <$> comm.

(** What rank [v] sends in a reverse scatter: for every scalar of every
    ghost block, (owner, position in the owner's array, value). *)
Definition outgoing (maps : list IndexMap.t) (v : t T) : list (nat * nat * T) :=
  '(k, (g, p)) ← IndexMap.ghost_table (index_map v);
  c ← seq 0 (bs v);
  match array v !! (bs v * (IndexMap.size_local (index_map v) + k) + c) with
  | Some x => [(p, bs v * IndexMap.local_of maps p g + c, x)]
  | None => []
  end.

(** What rank [p] receives: the messages addressed to it, by sending
    rank, then by ghost number. *)
Definition inbox (comm : list (t T)) (p : nat) : list (nat * T) :=
  (λ m, (m.1.2, m.2)) <$>
    filter (λ m, m.1.1 = p) (comm ≫= outgoing (index_map <$> comm)).

(** Modelled from the spec: [scatter_reverse(mode)] (collective): every
    ghost value is sent to its owner, which overwrites its entry
    ([insert], the last message wins) or adds to it ([add]).  The ghost
    entries themselves are left as they are. *)
Definition scatter_reverse (mode : InsertMode) (comm : list (t T)) : list (t T) :=
  imap (λ p v,
    with_array v
      (apply_updates (match mode with insert => λ _ x, x | add => sadd end)
         (inbox comm p) (array v))) comm.

End ops.
End Vector.

Module MatrixCSR.

(** Modelled from the spec: the DistributedMatrixCSR (native class
    MatrixCSR_<scalar>, not in the sources): row and column index maps,
    block mode, block sizes [(bs0, bs1)], and the three local arrays.
    [indptr] has one entry per local row (owned, then ghost) plus one;
    block [k] of row [i], for [indptr[i] <= k < indptr[i+1]], has column
    [indices[k]] and its [bs0 * bs1] scalars are stored contiguously,
    row-major, from [data[k * bs0 * bs1]]. *)
Record t (T : Type) := {
  index_map0 : IndexMap.t;
  index_map1 : IndexMap.t;
  block_mode : BlockMode;
  bs : nat * nat;
  data : list T;
  indices : list nat;
  indptr : list nat;
}.
Arguments index_map0 {T} _.
Arguments index_map1 {T} _.
Arguments block_mode {T} _.
Arguments bs {T} _.
Arguments data {T} _.
Arguments indices {T} _.
Arguments indptr {T} _.

(** Row offsets of a list of rows, starting from [acc]. *)
Fixpoint offsets {A} (acc : nat) (rows : list (list A)) : list nat :=
  acc :: match rows with
         | [] => []
         | r :: rows' => offsets (acc + length r) rows'
         end.

Section ops.
Context {T : Type} `{Scalar T}.

Definition with_data (A : t T) (d : list T) : t T :=
  {| index_map0 := index_map0 A; index_map1 := index_map1 A;
     block_mode := block_mode A; bs := bs A;
     data := d; indices := indices A; indptr := indptr A |}.

(** Scalars per block. *)
Definition block_len (A : t T) : nat := (bs A).1 * (bs A).2.

(** The rows of a blocked pattern, one scalar row and column per block
    row and column entry. *)
Definition expand_graph (b : nat * nat) (g : list (list nat)) : list (list nat) :=
  row ← g; replicate b.1 (c ← row; (λ q, c * b.2 + q) <$> seq 0 b.2).

(** Modelled from the spec: [create(sparsity_pattern, block_mode,
    dtype)], a zero matrix with storage shaped by the pattern; in
    [expanded] mode the blocks are expanded to scalar entries and the
    block sizes become [(1, 1)]. *)
Definition create (sp : SparsityPattern.t) (mode : BlockMode) : t T :=
  let b := SparsityPattern.block_size sp in
  match mode with
  | compact =>
      let g := SparsityPattern.graph sp in
      {| index_map0 := SparsityPattern.index_map sp;
         index_map1 := SparsityPattern.column_index_map sp;
         block_mode := compact; bs := b;
         data := replicate (length (concat g) * (b.1 * b.2)) szero;
         indices := concat g; indptr := offsets 0 g |}
  | expanded =>
      let g := expand_graph b (SparsityPattern.graph sp) in
      {| index_map0 := IndexMap.expand b.1 (SparsityPattern.index_map sp);
         index_map1 := IndexMap.expand b.2 (SparsityPattern.column_index_map sp);
         block_mode := expanded; bs := (1, 1);
         data := replicate (length (concat g)) szero;
         indices := concat g; indptr := offsets 0 g |}
  end.

(** The storage positions of the blocks of local row [i]. *)
Definition row_entries (A : t T) (i : nat) : list nat :=
  match indptr A !! i, indptr A !! S i with
  | Some lo, Some hi => seq lo (hi - lo)
  | _, _ => []
  end.

(** The storage position of block [(r, c)], if the pattern has it. *)
Definition find_slot (A : t T) (r c : nat) : option nat :=
  snd <$> list_find (λ k, indices A !! k = Some c) (row_entries A r).

(** The scalars of the block stored at position [k]. *)
Definition block_values (A : t T) (k : nat) : list T :=
  take (block_len A) (drop (k * block_len A) (data A)).

(** The scalar updates that bring the block at block row [ri], block
    column [ci] of [x] to the block stored at position [k].  [x] is a
    dense row-major array of [nc * bs1] columns; scalar [t] of a block,
    row-major, is at row [t / bs1] and column [t mod bs1] of the block.
    An entry that [x] does not have is not written. *)
Definition block_updates (A : t T) (x : list T) (nc ri ci k : nat) : list (nat * T) :=
  t ← seq 0 (block_len A);
  match x !! ((ri * (bs A).1 + t / (bs A).2) * (nc * (bs A).2)
              + ci * (bs A).2 + t mod (bs A).2) with
  | Some v => [(k * block_len A + t, v)]
  | None => []
  end.

(** The updates for the blocks [(r, c)], [r] in [rows] and [c] in
    [cols]; a block that the pattern does not have is an error. *)
Fixpoint cols_updates (A : t T) (x : list T) (nc ri r : nat) (ci : nat) (cols : list nat)
    : result (list (nat * T)) :=
  match cols with
  | [] => Ok []
  | c :: cols' =>
      match find_slot A r c with
      | None => Raise RuntimeError     (* entry not in the sparsity pattern *)
      | Some k =>
          us ← cols_updates A x nc ri r (S ci) cols';
          Ok (block_updates A x nc ri ci k ++ us)
      end
  end.

Fixpoint rows_updates (A : t T) (x : list T) (cols : list nat) (ri : nat) (rows : list nat)
    : result (list (nat * T)) :=
  match rows with
  | [] => Ok []
  | r :: rows' =>
      us ← cols_updates A x (length cols) ri r 0 cols;
      us' ← rows_updates A x cols (S ri) rows';
      Ok (us ++ us')
  end.

(** Modelled from the spec: the addressing shared by [add] and [set]: a
    dense block of values for the (row, col) block positions, each of
    which must exist in the pattern; a position that does not is the
    only error.  The blocks have the shape [(bs0, bs1)] fixed at
    construction, for every matrix; the spec gives the argument [bs] no
    effect of its own, and the model gives it none. *)
Definition insert_csr (op : T → T → T) (A : t T)
    (x : list T) (rows cols : list nat) (bs_ : nat) : result (t T) :=
  us ← rows_updates A x cols 0 rows;
  Ok (with_data A (apply_updates op us (data A))).

(** Modelled from the spec: [add] accumulates into the stored blocks. *)
Definition add := insert_csr sadd.

(** Modelled from the spec: [set] overwrites the stored blocks. *)
Definition set := insert_csr (λ _ v : T, v).

(** Modelled from the spec: [set_value(x)] overwrites every stored
    scalar. *)
Definition set_value (A : t T) (x : T) : t T :=
  with_data A ((λ _, x) <$> data A).

(** A vector conforms to an index map with block size [b] when its local
    array has the owned and ghost sizes the map gives. *)
Definition conforms (v : Vector.t T) (m : IndexMap.t) (b : nat) : Prop :=
  Vector.owned_size v = b * IndexMap.size_local m ∧
  length (Vector.array v) = b * (IndexMap.size_local m + IndexMap.num_ghosts m).

#[global] Instance conforms_dec v m b : Decision (conforms v m b).
Proof. unfold conforms. apply _. Defined.

(** The products of row [a] of the block stored at [k] with the entries
    of [x] for the columns of the block. *)
Definition block_products (A : t T) (x : list T) (k a : nat) : list T :=
  b ← seq 0 (bs A).2;
  match data A !! (k * block_len A + a * (bs A).2 + b),
        indices A !! k ≫= λ j, x !! (j * (bs A).2 + b) with
  | Some v, Some xv => [smul v xv]
  | _, _ => []
  end.

(** Entry [a] of block row [i] of the product [A x]: the products for
    the blocks of the row, in storage order, summed. *)
Definition row_dot (A : t T) (x : list T) (i a : nat) : T :=
  ssum (k ← row_entries A i; block_products A x k a).

(** Modelled from the spec: [mult(x, y)], [y += A x] on the local rows
    (owned and ghost) from the local arrays: entry [j] of [y], which is
    entry [j mod bs0] of block row [j / bs0], gets its value plus that
    entry of the product.  Vectors that do not conform to the index maps
    of the matrix are an error. *)
Definition mult (A : t T) (x y : Vector.t T) : result (Vector.t T) :=
  if decide (conforms x (index_map1 A) (bs A).2 ∧ conforms y (index_map0 A) (bs A).1) then
    Ok (Vector.with_array y
          (imap (λ j yj,
             if decide (j < (length (indptr A) - 1) * (bs A).1) then
               sadd yj (row_dot A (Vector.array x) (j / (bs A).1) (j mod (bs A).1))
             else yj)
             (Vector.array y)))
  else Raise RuntimeError.

(** The blocks of the owned rows, row by row. *)
Definition owned_rows (A : t T) : list (list nat) :=
  row_entries A <$> seq 0 (IndexMap.size_local (index_map0 A)).

(** Sum of the squares of the scalars stored for the owned rows of one
    rank, in storage order. *)
Definition local_squared_norm (A : t T) : T :=
  ssum (snormsq <$> (k ← concat (owned_rows A); block_values A k)).

(** Modelled from the spec: [squared_norm()] (collective): the local sums
    over owned rows, summed over the ranks; every rank gets the sum. *)
Definition squared_norm (comm : list (t T)) : list T :=
  (λ _, ssum (local_squared_norm <$> comm)) <$> comm.

(** The logical (global) matrix held by the ranks: for every global row,
    in global order, its stored blocks as (global column, scalars). *)
Definition logical_rows (comm : list (t T)) : list (list (nat * list T)) :=
  concat (imap (λ p A,
    (λ row : list nat, (λ k, (IndexMap.global_of (index_map1 <$> comm) p (index_map1 A)
                     (default 0 (indices A !! k)),
                   block_values A k)) <$> row) <$> owned_rows A) comm).

(** Modelled from the spec: the invariant of a DistributedMatrixCSR.
    Block sizes are positive; [indptr] has one entry per local row plus
    one, is non-decreasing and ends at the number of stored blocks;
    [data] holds [bs0 * bs1] scalars per stored block; every stored
    column index is a local column (owned or ghost) of the column map;
    and the sizes fit the 64-bit integers the arrays are indexed with. *)
Record wf (A : t T) : Prop := {
  wf_bs : 0 < (bs A).1 ∧ 0 < (bs A).2;
  wf_indptr_length :
    length (indptr A) =
      IndexMap.size_local (index_map0 A) + IndexMap.num_ghosts (index_map0 A) + 1;
  wf_indptr_mono :
    ∀ i lo hi, indptr A !! i = Some lo → indptr A !! S i = Some hi → lo ≤ hi;
  wf_indptr_last : indptr A !! (length (indptr A) - 1) = Some (length (indices A));
  wf_data_length : length (data A) = length (indices A) * block_len A;
  wf_columns :
    Forall (λ j, j < IndexMap.size_local (index_map1 A) + IndexMap.num_ghosts (index_map1 A))
      (indices A);
  wf_size : (Z.of_nat (length (data A)) < 2 ^ 63)%Z;
}.

(** Modelled from the spec: [index_map(i)], the row map for [i = 0] and
    the column map for [i = 1]. *)
Definition index_map (A : t T) (i : Z) : result IndexMap.t :=
  if (i =? 0)%Z then Ok (index_map0 A)
  else if (i =? 1)%Z then Ok (index_map1 A)
  else Raise IndexError.

End ops.
End MatrixCSR.

(** The classes of [dolfinx.cpp.la] the factory functions choose from,
    one per scalar type. *)
Module la.

Inductive MatrixCSR_class :=
| MatrixCSR_float32 | MatrixCSR_float64 | MatrixCSR_complex64 | MatrixCSR_complex128.

Inductive Vector_class :=
| Vector_float32 | Vector_float64 | Vector_complex64 | Vector_complex128
| Vector_int8 | Vector_int32 | Vector_int64.

(** The scalar type a class is instantiated at. *)
Definition matrix_scalar (c : MatrixCSR_class) : np.scalar_type :=
  match c with
  | MatrixCSR_float32 => np.float32
  | MatrixCSR_float64 => np.float64
  | MatrixCSR_complex64 => np.complex64
  | MatrixCSR_complex128 => np.complex128
  end.

Definition vector_scalar (c : Vector_class) : np.scalar_type :=
  match c with
  | Vector_float32 => np.float32
  | Vector_float64 => np.float64
  | Vector_complex64 => np.complex64
  | Vector_complex128 => np.complex128
  | Vector_int8 => np.int8
  | Vector_int32 => np.int32
  | Vector_int64 => np.int64
  end.

End la.

End cpp.

(** ** The process state a call can change

    Constructing a native object and creating or destroying a PETSc
    wrapper are effects; [trace] records them in order. *)

Module PETSc.
(** A [petsc4py.PETSc.Vec] object, by identity. *)
Record Vec := { handle : nat }.
End PETSc.

Inductive event :=
| Construct_MatrixCSR (c : cpp.la.MatrixCSR_class)
| Construct_Vector (c : cpp.la.Vector_class)
| Vec_create (v : PETSc.Vec)
| Vec_destroy (v : PETSc.Vec).

Record world := {
  has_petsc4py : bool;       (* dolfinx.has_petsc4py *)
  next_handle : nat;         (* identity of the next PETSc object *)
  trace : list event;
}.

Definition log (e : event) (w : world) : world :=
  {| has_petsc4py := has_petsc4py w; next_handle := next_handle w;
     trace := trace w ++ [e] |}.

(** A call: from the state before to a result (a value or an exception)
    and the state after. *)
Definition Py (A : Type) : Type := world → result A * world.

Definition py_ret {A} (a : A) : Py A := λ w, (Ok a, w).
Definition py_raise {A} (e : exception) : Py A := λ w, (Raise e, w).
Definition py_bind {A B} (m : Py A) (f : A → Py B) : Py B :=
  λ w, match m w with
       | (Ok a, w') => f a w'
       | (Raise e, w') => (Raise e, w')
       end.

Notation "'let*' x := m 'in' k" := (py_bind m (λ x, k))
  (at level 10, x pattern, m at level 100, k at level 200).

(** [v.destroy()]. *)
Definition Vec_destroy_call (v : PETSc.Vec) : Py unit :=
  λ w, (Ok (), log (Vec_destroy v) w).

(** ** [dolfinx.la.Vector] *)

Module Vector.

Record t (T : Type) := {
  _cpp_object : cpp.Vector.t T;
  _petsc_x : option PETSc.Vec;
}.
Arguments _cpp_object {T} _.
Arguments _petsc_x {T} _.

Section methods.
Context {T : Type} `{Scalar T}.

Definition __init__ (x : cpp.Vector.t T) : t T :=
  {| _cpp_object := x; _petsc_x := None |}.

Definition __del__ (self : t T) : Py unit :=
  match _petsc_x self with
  | Some v => Vec_destroy_call v
  | None => py_ret ()
  end.

Definition index_map (self : t T) : cpp.IndexMap.t :=
  cpp.Vector.index_map (_cpp_object self).

Definition block_size (self : t T) : nat := cpp.Vector.bs (_cpp_object self).

Definition array (self : t T) : list T := cpp.Vector.array (_cpp_object self).

(** Modelled from the spec: [dolfinx.la.petsc.create_vector_wrap] (not
    in the sources): a new PETSc object that wraps, and does not copy,
    the data of the vector. *)
Definition create_vector_wrap (x : t T) : Py PETSc.Vec :=
  λ w, let v := {| PETSc.handle := next_handle w |} in
       (Ok v, {| has_petsc4py := has_petsc4py w;
                 next_handle := S (next_handle w);
                 trace := trace w ++ [Vec_create v] |}).

(** The property [petsc_vec]; the call may assign [self._petsc_x], so it
    returns the object as it is after the call as well. *)
Definition petsc_vec (self : t T) : Py (PETSc.Vec * t T) :=
  λ w,
    if has_petsc4py w then
      match _petsc_x self with
      | None =>
          (let* v := create_vector_wrap self in
           py_ret (v, {| _cpp_object := _cpp_object self; _petsc_x := Some v |})) w
      | Some v => py_ret (v, self) w
      end
    else py_raise AssertionError w.

(** The native object after a call that changed it. *)
Definition with_cpp_object (self : t T) (x : cpp.Vector.t T) : t T :=
  {| _cpp_object := x; _petsc_x := _petsc_x self |}.

(** [scatter_forward] and [scatter_reverse] are collective: every rank
    makes the call on its own part of the vector. *)
Definition scatter_forward (comm : list (t T)) : list (t T) :=
  zip_with with_cpp_object comm (cpp.Vector.scatter_forward (_cpp_object <$> comm)).

Definition scatter_reverse (comm : list (t T)) (mode : cpp.InsertMode) : list (t T) :=
  zip_with with_cpp_object comm (cpp.Vector.scatter_reverse mode (_cpp_object <$> comm)).

End methods.
End Vector.

(** ** [dolfinx.la.MatrixCSR] *)

Module MatrixCSR.

Record t (T : Type) := { _cpp_object : cpp.MatrixCSR.t T }.
Arguments _cpp_object {T} _.

Section methods.
Context {T : Type} `{Scalar T}.

Definition __init__ (A : cpp.MatrixCSR.t T) : t T := {| _cpp_object := A |}.

Definition index_map (self : t T) (i : Z) : result cpp.IndexMap.t :=
  cpp.MatrixCSR.index_map (_cpp_object self) i.

(** [size_local] and [num_ghosts] of an index map, as Python integers. *)
Definition size_local (m : cpp.IndexMap.t) : Z := Z.of_nat (cpp.IndexMap.size_local m).
Definition num_ghosts (m : cpp.IndexMap.t) : Z := Z.of_nat (cpp.IndexMap.num_ghosts m).

Definition mult (self : t T) (x y : Vector.t T) : result (Vector.t T) :=
  y' ← cpp.MatrixCSR.mult (_cpp_object self) (Vector._cpp_object x) (Vector._cpp_object y);
  Ok (Vector.with_cpp_object y y').

Definition block_size (self : t T) : Z * Z :=
  (Z.of_nat (cpp.MatrixCSR.bs (_cpp_object self)).1,
   Z.of_nat (cpp.MatrixCSR.bs (_cpp_object self)).2).

Definition add (self : t T) (x : list T) (rows cols : list nat) (bs : nat) : result (t T) :=
  A ← cpp.MatrixCSR.add (_cpp_object self) x rows cols bs; Ok {| _cpp_object := A |}.

Definition set (self : t T) (x : list T) (rows cols : list nat) (bs : nat) : result (t T) :=
  A ← cpp.MatrixCSR.set (_cpp_object self) x rows cols bs; Ok {| _cpp_object := A |}.

Definition set_value (self : t T) (x : T) : t T :=
  {| _cpp_object := cpp.MatrixCSR.set_value (_cpp_object self) x |}.

(** Collective: the value every rank gets. *)
Definition squared_norm (comm : list (t T)) : list T :=
  cpp.MatrixCSR.squared_norm (_cpp_object <$> comm).

Definition data (self : t T) : list T := cpp.MatrixCSR.data (_cpp_object self).

Definition indices (self : t T) : list Z :=
  Z.of_nat <$> cpp.MatrixCSR.indices (_cpp_object self).

Definition indptr (self : t T) : list Z :=
  Z.of_nat <$> cpp.MatrixCSR.indptr (_cpp_object self).

Definition to_scipy (self : t T) (ghosted : bool) : result (scipy.spmatrix T) :=
  let '(bs0, bs1) := block_size self in
  m1 ← index_map self 1;
  let ncols := (size_local m1 + num_ghosts m1)%Z in
  m0 ← index_map self 0;
  '(nrows, data_, indices_, indptr_) ←
    (if ghosted then
       Ok ((size_local m0 + num_ghosts m0)%Z, data self, indices self, indptr self)
     else
       let nrows := size_local m0 in
       nnzlocal ← ndarray.getitem (indptr self) nrows;
       Ok (nrows,
           ndarray.slice_to (data self) (np.wrap64 ((bs0 * bs1) * nnzlocal)),
           ndarray.slice_to (indices self) nnzlocal,
           ndarray.slice_to (indptr self) (nrows + 1)%Z));
  if ((bs0 =? 1) && (bs1 =? 1))%Z then
    Ok (scipy.csr_matrix data_ indices_ indptr_ (nrows, ncols))
  else
    d ← ndarray.reshape3 data_ bs0 bs1;
    Ok (scipy.bsr_matrix d indices_ indptr_ ((bs0 * nrows)%Z, (bs1 * ncols)%Z)).

End methods.
End MatrixCSR.

(** ** The factory functions *)

Section factories.
Context {T : Type} `{Scalar T}.

(** A call of one of the native constructors. *)
Definition construct_matrix (ftype : cpp.la.MatrixCSR_class)
    (sp : cpp.SparsityPattern.t) (block_mode : cpp.BlockMode) : Py (cpp.MatrixCSR.t T) :=
  λ w, (Ok (cpp.MatrixCSR.create sp block_mode), log (Construct_MatrixCSR ftype) w).

Definition construct_vector (vtype : cpp.la.Vector_class)
    (map : cpp.IndexMap.t) (bs : nat) : Py (cpp.Vector.t T) :=
  λ w, (Ok (cpp.Vector.create map bs), log (Construct_Vector vtype) w).

Definition matrix_csr (sp : cpp.SparsityPattern.t) (block_mode : cpp.BlockMode)
    (dtype : np.DTypeLike) : Py (MatrixCSR.t T) :=
  let* ftype :=
    (if np.issubdtype dtype np.float32 then py_ret cpp.la.MatrixCSR_float32
     else if np.issubdtype dtype np.float64 then py_ret cpp.la.MatrixCSR_float64
     else if np.issubdtype dtype np.complex64 then py_ret cpp.la.MatrixCSR_complex64
     else if np.issubdtype dtype np.complex128 then py_ret cpp.la.MatrixCSR_complex128
     else py_raise (NotImplementedError dtype)) in
  let* A := construct_matrix ftype sp block_mode in
  py_ret (MatrixCSR.__init__ A).

Definition vector (map : cpp.IndexMap.t) (bs : nat) (dtype : np.DTypeLike) : Py (Vector.t T) :=
  let* vtype :=
    (if np.issubdtype dtype np.float32 then py_ret cpp.la.Vector_float32
     else if np.issubdtype dtype np.float64 then py_ret cpp.la.Vector_float64
     else if np.issubdtype dtype np.complex64 then py_ret cpp.la.Vector_complex64
     else if np.issubdtype dtype np.complex128 then py_ret cpp.la.Vector_complex128
     else if np.issubdtype dtype np.int8 then py_ret cpp.la.Vector_int8
     else if np.issubdtype dtype np.int32 then py_ret cpp.la.Vector_int32
     else if np.issubdtype dtype np.int64 then py_ret cpp.la.Vector_int64
     else py_raise (NotImplementedError dtype)) in
  let* x := construct_vector vtype map bs in
  py_ret (Vector.__init__ x).

End factories.


(** * Vocabulary of the properties *)

(** ** The factory functions *)

Definition matrix_scalars : list np.scalar_type :=
  [np.float32; np.float64; np.complex64; np.complex128].

Definition vector_scalars : list np.scalar_type :=
  [np.float32; np.float64; np.complex64; np.complex128; np.int8; np.int32; np.int64].

Section factory_outcomes.
Context {T : Type} `{Scalar T}.

(** What a successful [matrix_csr] call amounts to: one native
    constructor call, wrapped. *)
Definition construct_and_wrap (c : cpp.la.MatrixCSR_class)
    (sp : cpp.SparsityPattern.t) (bm : cpp.BlockMode) (w : world)
    : result (MatrixCSR.t T) * world :=
  (Ok (MatrixCSR.__init__ (cpp.MatrixCSR.create sp bm)), log (Construct_MatrixCSR c) w).

Definition construct_and_wrap_vector (c : cpp.la.Vector_class)
    (map : cpp.IndexMap.t) (bs : nat) (w : world) : result (Vector.t T) * world :=
  (Ok (Vector.__init__ (cpp.Vector.create map bs)), log (Construct_Vector c) w).

End factory_outcomes.

(** ** The life of a [Vector] *)

Section vector_life.
Context {T : Type} `{Scalar T}.

(** What a program does with a vector between its construction and its
    destruction: it reads [petsc_vec], or it calls something that
    changes the native object (a scatter, a write to the array). *)
Inductive use :=
| use_petsc_vec
| use_native (x : cpp.Vector.t T).

Definition is_petsc_vec (u : use) : bool :=
  match u with use_petsc_vec => true | use_native _ => false end.

(** The uses in order; an exception raised by an access is caught by the
    program and recorded, and the uses go on.  Returns what the accesses
    gave, the object and the state at the end. *)
Fixpoint run_uses (us : list use) (self : Vector.t T) (w : world)
    : list (result PETSc.Vec) * Vector.t T * world :=
  match us with
  | [] => ([], self, w)
  | use_native x :: us' => run_uses us' (Vector.with_cpp_object self x) w
  | use_petsc_vec :: us' =>
      match Vector.petsc_vec self w with
      | (Ok (v, self'), w') =>
          let '(rs, s, w'') := run_uses us' self' w' in (Ok v :: rs, s, w'')
      | (Raise e, w') =>
          let '(rs, s, w'') := run_uses us' self w' in (Raise e :: rs, s, w'')
      end
  end.

(** A whole life: [__init__], the uses, [__del__]. *)
Definition lifetime (x : cpp.Vector.t T) (us : list use) (w : world)
    : list (result PETSc.Vec) * world :=
  let '(rs, self, w') := run_uses us (Vector.__init__ x) w in
  (rs, (Vector.__del__ self w').2).

Definition accesses (us : list use) : nat := length (filter is_petsc_vec us).

End vector_life.

(** ** The local part of a matrix *)

Section local_sizes.
Context {T : Type}.

(** Number of local rows [to_scipy] keeps: the owned rows, and the ghost
    rows as well when [ghosted]. *)
Definition local_rows (A : cpp.MatrixCSR.t T) (ghosted : bool) : nat :=
  cpp.IndexMap.size_local (cpp.MatrixCSR.index_map0 A) +
  (if ghosted then cpp.IndexMap.num_ghosts (cpp.MatrixCSR.index_map0 A) else 0).

(** Number of blocks stored in these rows, [indptr[local_rows]]. *)
Definition local_nnz (A : cpp.MatrixCSR.t T) (ghosted : bool) : nat :=
  default 0 (cpp.MatrixCSR.indptr A !! local_rows A ghosted).

(** Number of local columns, owned and ghost. *)
Definition local_cols (A : cpp.MatrixCSR.t T) : nat :=
  cpp.IndexMap.size_local (cpp.MatrixCSR.index_map1 A) +
  cpp.IndexMap.num_ghosts (cpp.MatrixCSR.index_map1 A).

(** The scalars stored for block position [k] of a matrix. *)
Definition stored_block `{Scalar T} (self : MatrixCSR.t T) (k : nat) : list T :=
  cpp.MatrixCSR.block_values (MatrixCSR._cpp_object self) k.

(** Two [add] calls with the values [v] at the block [(r, c)] store, at
    position [k], twice what the first of them stores there. *)
Definition add_twice_doubles `{Scalar T} (self : MatrixCSR.t T)
    (r c k bs : nat) (v : list T) : Prop :=
  ∀ self1 self2,
    MatrixCSR.add self v [r] [c] bs = Ok self1 →
    MatrixCSR.add self1 v [r] [c] bs = Ok self2 →
    stored_block self2 k = zip_with sadd (stored_block self1 k) (stored_block self1 k).

(** A sequence of [add] calls, each with its values, rows and columns,
    all with block size [bs]. *)
Fixpoint add_all `{Scalar T} (self : MatrixCSR.t T)
    (calls : list (list T * list nat * list nat)) (bs : nat) : result (MatrixCSR.t T) :=
  match calls with
  | [] => Ok self
  | (x, rows, cols) :: calls' =>
      self' ← MatrixCSR.add self x rows cols bs; add_all self' calls' bs
  end.

(** The data of a SciPy matrix is [n] blocks of [b0] rows of [b1]
    scalars (for CSR, [b0 = b1 = 1] and [n] scalars). *)
Definition block_shaped (b0 b1 n : nat) (m : scipy.spmatrix T) : Prop :=
  match m with
  | scipy.csr_matrix d _ _ _ => b0 = 1 ∧ b1 = 1 ∧ length d = n
  | scipy.bsr_matrix d _ _ _ =>
      length d = n ∧
      Forall (λ blk, length blk = b0 ∧ Forall (λ row : list T, length row = b1) blk) d
  end.

End local_sizes.

(** ** Example objects *)

(** A rank with two owned rows and one ghost row, two owned columns and
    one ghost column, scalar blocks:
    row 0 has columns 0 and 1, row 1 has columns 1 and 2, the ghost row
    has column 0. *)
Definition example_rows : cpp.IndexMap.t :=
  {| cpp.IndexMap.size_local := 2; cpp.IndexMap.ghosts := [2]; cpp.IndexMap.owners := [1] |}.

Definition example_csr : cpp.MatrixCSR.t Z :=
  {| cpp.MatrixCSR.index_map0 := example_rows;
     cpp.MatrixCSR.index_map1 := example_rows;
     cpp.MatrixCSR.block_mode := cpp.compact;
     cpp.MatrixCSR.bs := (1, 1);
     cpp.MatrixCSR.data := [10; 20; 30; 40; 50]%Z;
     cpp.MatrixCSR.indices := [0; 1; 1; 2; 0];
     cpp.MatrixCSR.indptr := [0; 2; 4; 5] |}.

(** The same pattern with 2 x 1 blocks. *)
Definition example_bsr : cpp.MatrixCSR.t Z :=
  {| cpp.MatrixCSR.index_map0 := example_rows;
     cpp.MatrixCSR.index_map1 := example_rows;
     cpp.MatrixCSR.block_mode := cpp.compact;
     cpp.MatrixCSR.bs := (2, 1);
     cpp.MatrixCSR.data := [10; 11; 20; 21; 30; 31; 40; 41; 50; 51]%Z;
     cpp.MatrixCSR.indices := [0; 1; 1; 2; 0];
     cpp.MatrixCSR.indptr := [0; 2; 4; 5] |}.

(** A vector on two ranks, block size one: rank 0 owns the global
    entries 0 and 1 and has entry 2 as a ghost, rank 1 owns 2 and 3 and
    has entry 1 as a ghost. *)
Definition example_vector : list (Vector.t Z) :=
  [ Vector.__init__
      {| cpp.Vector.index_map :=
           {| cpp.IndexMap.size_local := 2; cpp.IndexMap.ghosts := [2];
              cpp.IndexMap.owners := [1] |};
         cpp.Vector.bs := 1; cpp.Vector.array := [1; 2; 0]%Z |};
    Vector.__init__
      {| cpp.Vector.index_map :=
           {| cpp.IndexMap.size_local := 2; cpp.IndexMap.ghosts := [1];
              cpp.IndexMap.owners := [0] |};
         cpp.Vector.bs := 1; cpp.Vector.array := [3; 4; 7]%Z |} ].

(** ** The logical matrix *)

Section logical_matrix.
Context {T : Type} `{Scalar T}.

(** Two distributions hold the same logical matrix when they give the
    same global rows, each with the same blocks in some order. *)
Definition same_logical_matrix (comm1 comm2 : list (MatrixCSR.t T)) : Prop :=
  Forall2 (≡ₚ) (cpp.MatrixCSR.logical_rows (MatrixCSR._cpp_object <$> comm1))
               (cpp.MatrixCSR.logical_rows (MatrixCSR._cpp_object <$> comm2)).

(** The object after a direct write [data[q] = x] to the value array. *)
Definition write_data (self : MatrixCSR.t T) (q : nat) (x : T) : MatrixCSR.t T :=
  MatrixCSR.__init__
    (cpp.MatrixCSR.with_data (MatrixCSR._cpp_object self) (<[q := x]> (MatrixCSR.data self))).

End logical_matrix.

(** A 4 x 4 matrix held by one rank, and the same matrix on two ranks of
    two owned rows each; on two ranks, rank 0 also has global row 2 as a
    ghost row, with one entry not yet sent to its owner. *)
Definition example_map (n : nat) (ghosts owners : list nat) : cpp.IndexMap.t :=
  {| cpp.IndexMap.size_local := n; cpp.IndexMap.ghosts := ghosts;
     cpp.IndexMap.owners := owners |}.

Definition example_one_rank : list (MatrixCSR.t Z) :=
  [ MatrixCSR.__init__
      {| cpp.MatrixCSR.index_map0 := example_map 4 [] [];
         cpp.MatrixCSR.index_map1 := example_map 4 [] [];
         cpp.MatrixCSR.block_mode := cpp.compact; cpp.MatrixCSR.bs := (1, 1);
         cpp.MatrixCSR.data := [1; 2; 3; 4; 6; 5; 7]%Z;
         cpp.MatrixCSR.indices := [0; 1; 1; 2; 1; 2; 3];
         cpp.MatrixCSR.indptr := [0; 2; 4; 6; 7] |} ].

Definition example_rank0 : MatrixCSR.t Z :=
  MatrixCSR.__init__
    {| cpp.MatrixCSR.index_map0 := example_map 2 [2] [1];
       cpp.MatrixCSR.index_map1 := example_map 2 [2] [1];
       cpp.MatrixCSR.block_mode := cpp.compact; cpp.MatrixCSR.bs := (1, 1);
       cpp.MatrixCSR.data := [1; 2; 3; 4; 100]%Z;
       cpp.MatrixCSR.indices := [0; 1; 1; 2; 2];
       cpp.MatrixCSR.indptr := [0; 2; 4; 5] |}.

Definition example_rank1 : MatrixCSR.t Z :=
  MatrixCSR.__init__
    {| cpp.MatrixCSR.index_map0 := example_map 2 [] [];
       cpp.MatrixCSR.index_map1 := example_map 2 [1] [0];
       cpp.MatrixCSR.block_mode := cpp.compact; cpp.MatrixCSR.bs := (1, 1);
       cpp.MatrixCSR.data := [5; 6; 7]%Z;
       cpp.MatrixCSR.indices := [0; 2; 1];
       cpp.MatrixCSR.indptr := [0; 2; 3] |}.

Definition example_two_ranks : list (MatrixCSR.t Z) := [example_rank0; example_rank1].

(** Vectors for the matrix on two ranks: [x] with all entries one and
    [y] zero, laid out by the column map and by the row map. *)
Definition example_x0 : Vector.t Z :=
  Vector.__init__ {| cpp.Vector.index_map := example_map 2 [2] [1];
                     cpp.Vector.bs := 1; cpp.Vector.array := [1; 1; 1]%Z |}.
Definition example_x1 : Vector.t Z :=
  Vector.__init__ {| cpp.Vector.index_map := example_map 2 [1] [0];
                     cpp.Vector.bs := 1; cpp.Vector.array := [1; 1; 1]%Z |}.
Definition example_x : list (Vector.t Z) := [example_x0; example_x1].

Definition example_y0 : Vector.t Z :=
  Vector.__init__ {| cpp.Vector.index_map := example_map 2 [2] [1];
                     cpp.Vector.bs := 1; cpp.Vector.array := [0; 0; 0]%Z |}.
Definition example_y1 : Vector.t Z :=
  Vector.__init__ {| cpp.Vector.index_map := example_map 2 [] [];
                     cpp.Vector.bs := 1; cpp.Vector.array := [0; 0]%Z |}.
Definition example_y : list (Vector.t Z) := [example_y0; example_y1].

(** Every rank calls [A.mult(x, y)] on its own parts. *)
Fixpoint mult_on_ranks {T} `{Scalar T} (As : list (MatrixCSR.t T)) (xs ys : list (Vector.t T))
    : result (list (Vector.t T)) :=
  match As, xs, ys with
  | A :: As', x :: xs', y :: ys' =>
      y' ← MatrixCSR.mult A x y; ys'' ← mult_on_ranks As' xs' ys'; Ok (y' :: ys'')
  | _, _, _ => Ok []
  end.

(** ** Matrix objects for the edge cases of [to_scipy] *)

(** A rank that owns no row and has one ghost row, with 2 x 1 blocks. *)
Definition example_ghost_only : cpp.MatrixCSR.t Z :=
  {| cpp.MatrixCSR.index_map0 := example_map 0 [0] [1];
     cpp.MatrixCSR.index_map1 := example_map 1 [] [];
     cpp.MatrixCSR.block_mode := cpp.compact;
     cpp.MatrixCSR.bs := (2, 1);
     cpp.MatrixCSR.data := [5; 6]%Z;
     cpp.MatrixCSR.indices := [0];
     cpp.MatrixCSR.indptr := [0; 1] |}.

(** An object whose row pointers stop before the owned rows do (two
    owned rows, one pointer), and one whose value array is not a whole
    number of 2 x 1 blocks. *)
Definition example_short : cpp.MatrixCSR.t Z :=
  {| cpp.MatrixCSR.index_map0 := example_map 2 [] [];
     cpp.MatrixCSR.index_map1 := example_map 2 [] [];
     cpp.MatrixCSR.block_mode := cpp.compact;
     cpp.MatrixCSR.bs := (1, 1);
     cpp.MatrixCSR.data := [];
     cpp.MatrixCSR.indices := [];
     cpp.MatrixCSR.indptr := [0] |}.

Definition example_ragged : cpp.MatrixCSR.t Z :=
  {| cpp.MatrixCSR.index_map0 := example_map 1 [] [];
     cpp.MatrixCSR.index_map1 := example_map 1 [] [];
     cpp.MatrixCSR.block_mode := cpp.compact;
     cpp.MatrixCSR.bs := (2, 1);
     cpp.MatrixCSR.data := [1; 2; 3]%Z;
     cpp.MatrixCSR.indices := [0];
     cpp.MatrixCSR.indptr := [0; 1] |}.

(** ** Programs over several vectors *)

Section vector_programs.
Context {T : Type} `{Scalar T}.

(** What a program does with its vectors.  A vector is named by its
    place in the order of construction; [del_vector] is the moment the
    last reference goes and [__del__] runs. *)
Inductive command :=
| new_vector (x : cpp.Vector.t T)
| read_petsc_vec (i : nat)
| change_native (i : nat) (x : cpp.Vector.t T)
| del_vector (i : nat).

(** The vectors of a program: [None] once deleted. *)
Definition run_command (c : command) (vs : list (option (Vector.t T))) (w : world)
    : list (option (Vector.t T)) * world :=
  match c with
  | new_vector x => (vs ++ [Some (Vector.__init__ x)], w)
  | read_petsc_vec i =>
      match vs !! i with
      | Some (Some self) =>
          match Vector.petsc_vec self w with
          | (Ok (_, self'), w') => (<[i := Some self']> vs, w')
          | (Raise _, w') => (vs, w')
          end
      | _ => (vs, w)
      end
  | change_native i x =>
      match vs !! i with
      | Some (Some self) => (<[i := Some (Vector.with_cpp_object self x)]> vs, w)
      | _ => (vs, w)
      end
  | del_vector i =>
      match vs !! i with
      | Some (Some self) => (<[i := None]> vs, (Vector.__del__ self w).2)
      | _ => (vs, w)
      end
  end.

Definition run_program (cs : list command) (vs : list (option (Vector.t T))) (w : world)
    : list (option (Vector.t T)) * world :=
  foldl (λ s c, run_command c s.1 s.2) (vs, w) cs.

(** The wrappers the live vectors hold. *)
Definition cached (vs : list (option (Vector.t T))) : list PETSc.Vec :=
  omap (λ o : option (Vector.t T), o ≫= Vector._petsc_x) vs.

End vector_programs.

(** The wrappers a trace created, and those it destroyed, in order. *)
Definition created (tr : list event) : list PETSc.Vec :=
  omap (λ e, match e with Vec_create v => Some v | _ => None end) tr.

Definition destroyed (tr : list event) : list PETSc.Vec :=
  omap (λ e, match e with Vec_destroy v => Some v | _ => None end) tr.

(** What holds between the commands of a program: no wrapper is both
    destroyed and held, or destroyed or held twice; the wrappers created
    are those destroyed and those held; and the identity of the next
    wrapper is new. *)
Definition balanced {T} (vs : list (option (Vector.t T))) (w : world) : Prop :=
  NoDup (destroyed (trace w) ++ cached vs) ∧
  created (trace w) ≡ₚ destroyed (trace w) ++ cached vs ∧
  Forall (λ v, PETSc.handle v < next_handle w) (created (trace w)).

(** ** A matrix of float64 values, on one rank and split in two ways

    The 3 x 3 diagonal matrix with the entries 1e8, 1 and 1, held by one
    rank; by two ranks that own one and two rows; and by two ranks that
    own two rows and one row.  No rank has ghosts. *)
Definition example_f64 (n : nat) (d : list float) : MatrixCSR.t float :=
  MatrixCSR.__init__
    {| cpp.MatrixCSR.index_map0 := example_map n [] [];
       cpp.MatrixCSR.index_map1 := example_map n [] [];
       cpp.MatrixCSR.block_mode := cpp.compact; cpp.MatrixCSR.bs := (1, 1);
       cpp.MatrixCSR.data := d;
       cpp.MatrixCSR.indices := seq 0 n;
       cpp.MatrixCSR.indptr := seq 0 (S n) |}.

Definition example_f64_one_rank : list (MatrixCSR.t float) :=
  [example_f64 3 [1e8; 1; 1]%float].

Definition example_f64_split_1_2 : list (MatrixCSR.t float) :=
  [example_f64 1 [1e8]%float; example_f64 2 [1; 1]%float].

Definition example_f64_split_2_1 : list (MatrixCSR.t float) :=
  [example_f64 2 [1e8; 1]%float; example_f64 1 [1]%float].
(** * Properties *)

(** ** The factory functions: dispatch on the scalar type *)

Section factory_facts.
Context {T : Type} `{Scalar T}.

Lemma issubdtype_concrete dtype c :
  c ∈ vector_scalars →
  np.issubdtype dtype c = bool_decide (np.as_class dtype = c).
Proof.
  intros Hc. unfold np.issubdtype.
  destruct (np.as_class dtype); revert Hc; unfold vector_scalars;
    rewrite !elem_of_cons, elem_of_nil;
    intros [->|[->|[->|[->|[->|[->|[->|[]]]]]]]]; reflexivity.
Qed.

Lemma matrix_csr_cases sp bm dtype (w : world) :
  matrix_csr (T:=T) sp bm dtype w =
    match np.as_class dtype with
    | np.float32 => construct_and_wrap cpp.la.MatrixCSR_float32
    | np.float64 => construct_and_wrap cpp.la.MatrixCSR_float64
    | np.complex64 => construct_and_wrap cpp.la.MatrixCSR_complex64
    | np.complex128 => construct_and_wrap cpp.la.MatrixCSR_complex128
    | _ => λ _ _ w, (Raise (NotImplementedError dtype), w)
    end sp bm w.
Proof.
  unfold matrix_csr, construct_and_wrap.
  rewrite !issubdtype_concrete by (by apply (bool_decide_unpack _)).
  destruct (np.as_class dtype); reflexivity.
Qed.

Lemma vector_cases map bs dtype (w : world) :
  vector (T:=T) map bs dtype w =
    match np.as_class dtype with
    | np.float32 => construct_and_wrap_vector cpp.la.Vector_float32
    | np.float64 => construct_and_wrap_vector cpp.la.Vector_float64
    | np.complex64 => construct_and_wrap_vector cpp.la.Vector_complex64
    | np.complex128 => construct_and_wrap_vector cpp.la.Vector_complex128
    | np.int8 => construct_and_wrap_vector cpp.la.Vector_int8
    | np.int32 => construct_and_wrap_vector cpp.la.Vector_int32
    | np.int64 => construct_and_wrap_vector cpp.la.Vector_int64
    | _ => λ _ _ w, (Raise (NotImplementedError dtype), w)
    end map bs w.
Proof.
  unfold vector, construct_and_wrap_vector.
  rewrite !issubdtype_concrete by (by apply (bool_decide_unpack _)).
  destruct (np.as_class dtype); reflexivity.
Qed.

(** C1. [matrix_csr] returns a matrix only when the scalar type is
    float32, float64, complex64 or complex128, and [vector] only for
    these and int8, int32, int64; then exactly one native object, of the
    class of that scalar type, is constructed.  For every other [dtype]
    the call raises [NotImplementedError] and leaves the state as it
    was: no native constructor has run and no wrapper was made. *)
Theorem factory_dtype_dispatch sp bm map bs dtype (w : world) :
  ((∀ A w', matrix_csr (T:=T) sp bm dtype w = (Ok A, w') →
       np.as_class dtype ∈ matrix_scalars) ∧
   (np.as_class dtype ∈ matrix_scalars →
       ∃ c, cpp.la.matrix_scalar c = np.as_class dtype ∧
            matrix_csr (T:=T) sp bm dtype w = construct_and_wrap c sp bm w) ∧
   (np.as_class dtype ∉ matrix_scalars →
       matrix_csr (T:=T) sp bm dtype w = (Raise (NotImplementedError dtype), w))) ∧
  ((∀ x w', vector (T:=T) map bs dtype w = (Ok x, w') →
       np.as_class dtype ∈ vector_scalars) ∧
   (np.as_class dtype ∈ vector_scalars →
       ∃ c, cpp.la.vector_scalar c = np.as_class dtype ∧
            vector (T:=T) map bs dtype w = construct_and_wrap_vector c map bs w) ∧
   (np.as_class dtype ∉ vector_scalars →
       vector (T:=T) map bs dtype w = (Raise (NotImplementedError dtype), w))).
Proof.
  rewrite matrix_csr_cases, vector_cases.
  unfold matrix_scalars, vector_scalars.
  destruct (np.as_class dtype); (split; (split; [|split]));
    lazymatch goal with
    | |- ∀ _ _, _ = _ → _ =>
        intros ? ? Heq; first [discriminate Heq | by apply (bool_decide_unpack _)]
    | |- _ ∈ _ → _ =>
        intros Hin;
        first [ by eexists; split; [|reflexivity]
              | apply (bool_decide_pack _) in Hin; vm_compute in Hin; destruct Hin ]
    | |- _ ∉ _ → _ =>
        intros Hnot;
        first [ reflexivity | exfalso; apply Hnot; by apply (bool_decide_unpack _) ]
    end.
Qed.

End factory_facts.

(** *** Some calls *)

Example matrix_csr_examples sp (w : world) :
  matrix_csr (T:=Z) sp cpp.compact (np.type_ np.float64) w =
    (Ok (MatrixCSR.__init__ (cpp.MatrixCSR.create sp cpp.compact)),
     log (Construct_MatrixCSR cpp.la.MatrixCSR_float64) w) ∧
  matrix_csr (T:=Z) sp cpp.compact np.py_complex w =
    (Ok (MatrixCSR.__init__ (cpp.MatrixCSR.create sp cpp.compact)),
     log (Construct_MatrixCSR cpp.la.MatrixCSR_complex128) w) ∧
  matrix_csr (T:=Z) sp cpp.compact (np.type_ np.int32) w =
    (Raise (NotImplementedError (np.type_ np.int32)), w) ∧
  matrix_csr (T:=Z) sp cpp.compact (np.type_ np.floating) w =
    (Raise (NotImplementedError (np.type_ np.floating)), w).
Proof. repeat split. Qed.

Example vector_examples map (w : world) :
  vector (T:=Z) map 1 (np.dtype_ np.int32) w =
    (Ok (Vector.__init__ (cpp.Vector.create map 1)),
     log (Construct_Vector cpp.la.Vector_int32) w) ∧
  vector (T:=Z) map 1 (np.type_ np.float16) w =
    (Raise (NotImplementedError (np.type_ np.float16)), w) ∧
  vector (T:=Z) map 1 np.py_bool w = (Raise (NotImplementedError np.py_bool), w).
Proof. repeat split. Qed.

(** ** The cached PETSc wrapper of a [Vector] *)

Section petsc_wrapper.
Context {T : Type} `{Scalar T}.

Lemma run_uses_cached us (self : Vector.t T) v w :
  Vector._petsc_x self = Some v → has_petsc4py w = true →
  ∃ self', run_uses us self w = (replicate (accesses us) (Ok v), self', w) ∧
           Vector._petsc_x self' = Some v.
Proof.
  intros Hc Hw. revert self Hc.
  induction us as [|[|x] us IH]; intros self Hc; simpl.
  - by exists self.
  - unfold Vector.petsc_vec. rewrite Hw, Hc. unfold py_ret.
    destruct (IH self Hc) as (self' & -> & Hc'). by exists self'.
  - apply IH. exact Hc.
Qed.

Lemma run_uses_unavailable us (self : Vector.t T) w :
  has_petsc4py w = false →
  ∃ self', run_uses us self w = (replicate (accesses us) (Raise AssertionError), self', w) ∧
           Vector._petsc_x self' = Vector._petsc_x self.
Proof.
  intros Hw. revert self.
  induction us as [|[|x] us IH]; intros self; simpl.
  - by exists self.
  - unfold Vector.petsc_vec. rewrite Hw. unfold py_raise.
    destruct (IH self) as (self' & -> & Hc'). by exists self'.
  - destruct (IH (Vector.with_cpp_object self x)) as (self' & -> & Hc').
    by exists self'.
Qed.

Lemma run_uses_fresh us (self : Vector.t T) w :
  Vector._petsc_x self = None → has_petsc4py w = true →
  let v := {| PETSc.handle := next_handle w |} in
  ∃ self', run_uses us self w =
             (replicate (accesses us) (Ok v), self',
              if decide (accesses us = 0) then w
              else {| has_petsc4py := true; next_handle := S (next_handle w);
                      trace := trace w ++ [Vec_create v] |}) ∧
           Vector._petsc_x self' = if decide (accesses us = 0) then None else Some v.
Proof.
  intros Hc Hw v. revert self Hc.
  induction us as [|[|x] us IH]; intros self Hc; simpl.
  - by exists self.
  - unfold Vector.petsc_vec. rewrite Hw, Hc.
    unfold py_bind, py_ret, Vector.create_vector_wrap. fold v. rewrite Hw.
    edestruct (run_uses_cached us) as (self' & -> & Hc'); [| |by exists self']; done.
  - apply IH. exact Hc.
Qed.

(** C3. Over the whole life of a [Vector] (construction, any uses,
    destruction): the constructor creates no wrapper; the first access
    to [petsc_vec] creates one, and every access returns that same
    object; destruction calls [destroy] on it exactly once; and a vector
    whose [petsc_vec] was never read, or read only without petsc4py
    (each read raising [AssertionError]), creates and destroys nothing. *)
Theorem petsc_vec_lifetime (x : cpp.Vector.t T) (us : list use) (w : world) :
  let v := {| PETSc.handle := next_handle w |} in
  Vector._petsc_x (Vector.__init__ x) = None ∧
  lifetime x us w =
    if has_petsc4py w then
      (replicate (accesses us) (Ok v),
       if decide (accesses us = 0) then w
       else {| has_petsc4py := true; next_handle := S (next_handle w);
               trace := trace w ++ [Vec_create v; Vec_destroy v] |})
    else (replicate (accesses us) (Raise AssertionError), w).
Proof.
  intros v. split; [done|]. unfold lifetime.
  destruct (has_petsc4py w) eqn:Hw.
  - destruct (run_uses_fresh us (Vector.__init__ x) w) as (self' & -> & Hc); [done..|].
    fold v in Hc |- *. unfold Vector.__del__. rewrite Hc.
    destruct (decide (accesses us = 0)); [done|].
    simpl. unfold log; simpl. by rewrite <- app_assoc.
  - destruct (run_uses_unavailable us (Vector.__init__ x) w Hw) as (self' & -> & Hc).
    unfold Vector.__del__. rewrite Hc. done.
Qed.

End petsc_wrapper.

Example petsc_vec_lifetime_example (x y : cpp.Vector.t Z) :
  let w := {| has_petsc4py := true; next_handle := 7; trace := [] |} in
  let v := {| PETSc.handle := 7 |} in
  lifetime x [use_petsc_vec; use_native y; use_petsc_vec] w =
    ([Ok v; Ok v],
     {| has_petsc4py := true; next_handle := 8;
        trace := [Vec_create v; Vec_destroy v] |}) ∧
  lifetime x [use_native y] w = ([], w).
Proof. split; reflexivity. Qed.

(** ** [to_scipy]: the arrays and the shape handed to SciPy *)

Section ndarray_facts.
Context {A B : Type}.

Lemma getitem_fmap_nat (f : A → B) (l : list A) (i : nat) (x : A) :
  l !! i = Some x → ndarray.getitem (f <$> l) (Z.of_nat i) = Ok (f x).
Proof.
  intros Hi. pose proof (lookup_lt_Some _ _ _ Hi) as Hlt.
  unfold ndarray.getitem. rewrite length_fmap.
  destruct (Z.ltb_spec (Z.of_nat i) 0) as [?|_]; [lia|].
  destruct (Z.leb_spec 0 (Z.of_nat i)) as [_|?]; [|lia].
  destruct (Z.ltb_spec (Z.of_nat i) (Z.of_nat (length l))) as [_|?]; [|lia].
  simpl. rewrite Nat2Z.id, list_lookup_fmap, Hi. done.
Qed.

Lemma slice_to_nat (l : list A) (k : nat) :
  ndarray.slice_to l (Z.of_nat k) = take k l.
Proof.
  unfold ndarray.slice_to.
  destruct (Z.ltb_spec (Z.of_nat k) 0) as [?|_]; [lia|]. by rewrite Nat2Z.id.
Qed.

Lemma length_chunks (k n : nat) (l : list A) : length (ndarray.chunks k n l) = n.
Proof. revert l. induction n as [|n IH]; intros l; simpl; [done|]. by rewrite IH. Qed.

Lemma concat_chunks (k n : nat) (l : list A) :
  length l = n * k → concat (ndarray.chunks k n l) = l.
Proof.
  revert l. induction n as [|n IH]; intros l Hl; simpl.
  - by destruct l.
  - rewrite IH; [apply take_drop|]. rewrite length_drop. lia.
Qed.

Lemma chunks_lengths (k n : nat) (l : list A) :
  length l = n * k → Forall (λ c, length c = k) (ndarray.chunks k n l).
Proof.
  revert l. induction n as [|n IH]; intros l Hl; simpl; constructor.
  - rewrite length_take. lia.
  - apply IH. rewrite length_drop. lia.
Qed.

End ndarray_facts.

Lemma wrap64_small (z : Z) : (0 ≤ z < 2 ^ 63)%Z → np.wrap64 z = z.
Proof.
  intros Hz. unfold np.wrap64.
  rewrite Z.mod_small; lia.
Qed.

Section to_scipy_facts.
Context {T : Type} `{Scalar T}.

Lemma indptr_mono (A : cpp.MatrixCSR.t T) i j a b :
  cpp.MatrixCSR.wf A → i ≤ j →
  cpp.MatrixCSR.indptr A !! i = Some a → cpp.MatrixCSR.indptr A !! j = Some b → a ≤ b.
Proof.
  intros Hwf Hij Hi. revert b. induction Hij as [|j Hij IH]; intros b Hj.
  - assert (a = b) by congruence. lia.
  - destruct (lookup_lt_is_Some_2 (cpp.MatrixCSR.indptr A) j) as [c Hc].
    { apply lookup_lt_Some in Hj. lia. }
    etrans; [by apply IH|]. by eapply (cpp.MatrixCSR.wf_indptr_mono A Hwf).
Qed.

Lemma local_nnz_le (A : cpp.MatrixCSR.t T) (ghosted : bool) :
  cpp.MatrixCSR.wf A →
  cpp.MatrixCSR.indptr A !! local_rows A ghosted = Some (local_nnz A ghosted) ∧
  local_nnz A ghosted ≤ length (cpp.MatrixCSR.indices A) ∧
  (ghosted = true → local_nnz A ghosted = length (cpp.MatrixCSR.indices A)).
Proof.
  intros Hwf. pose proof (cpp.MatrixCSR.wf_indptr_length A Hwf) as Hlen.
  pose proof (cpp.MatrixCSR.wf_indptr_last A Hwf) as Hlast.
  unfold local_nnz.
  destruct (lookup_lt_is_Some_2 (cpp.MatrixCSR.indptr A) (local_rows A ghosted)) as [k Hk].
  { unfold local_rows. destruct ghosted; lia. }
  rewrite Hk. simpl. split; [done|]. split.
  - eapply (indptr_mono A); [done| |exact Hk|exact Hlast].
    unfold local_rows. destruct ghosted; lia.
  - intros ->. unfold local_rows in Hk.
    replace (length (cpp.MatrixCSR.indptr A) - 1) with
      (cpp.IndexMap.size_local (cpp.MatrixCSR.index_map0 A) +
       cpp.IndexMap.num_ghosts (cpp.MatrixCSR.index_map0 A)) in Hlast by lia.
    congruence.
Qed.

(** The rows, and with them the part of the three arrays, that
    [to_scipy] selects. *)
Lemma to_scipy_selection (self : MatrixCSR.t T) (ghosted : bool) :
  let A := MatrixCSR._cpp_object self in
  cpp.MatrixCSR.wf A →
  let n := local_rows A ghosted in
  let k := local_nnz A ghosted in
  (if ghosted then
     Ok ((MatrixCSR.size_local (cpp.MatrixCSR.index_map0 A) +
          MatrixCSR.num_ghosts (cpp.MatrixCSR.index_map0 A))%Z,
         MatrixCSR.data self, MatrixCSR.indices self, MatrixCSR.indptr self)
   else
     nnzlocal ← ndarray.getitem (MatrixCSR.indptr self)
                  (MatrixCSR.size_local (cpp.MatrixCSR.index_map0 A));
     Ok (MatrixCSR.size_local (cpp.MatrixCSR.index_map0 A),
         ndarray.slice_to (MatrixCSR.data self)
           (np.wrap64 ((MatrixCSR.block_size self).1 * (MatrixCSR.block_size self).2 * nnzlocal)),
         ndarray.slice_to (MatrixCSR.indices self) nnzlocal,
         ndarray.slice_to (MatrixCSR.indptr self)
           (MatrixCSR.size_local (cpp.MatrixCSR.index_map0 A) + 1)%Z))
  = Ok (Z.of_nat n,
        take (k * cpp.MatrixCSR.block_len A) (cpp.MatrixCSR.data A),
        Z.of_nat <$> take k (cpp.MatrixCSR.indices A),
        Z.of_nat <$> take (n + 1) (cpp.MatrixCSR.indptr A)).
Proof.
  intros A Hwf n k.
  destruct (local_nnz_le A ghosted Hwf) as (Hk & Hle & Hfull). fold k n in Hk, Hle, Hfull.
  pose proof (cpp.MatrixCSR.wf_indptr_length A Hwf) as Hlen.
  pose proof (cpp.MatrixCSR.wf_data_length A Hwf) as Hdata.
  pose proof (cpp.MatrixCSR.wf_size A Hwf) as Hsize.
  unfold MatrixCSR.data, MatrixCSR.indices, MatrixCSR.indptr,
    MatrixCSR.size_local, MatrixCSR.num_ghosts, MatrixCSR.block_size.
  fold A. subst n. unfold local_rows in *. destruct ghosted.
  - rewrite Hfull by done. rewrite !take_ge by lia.
    f_equal. f_equal. f_equal. f_equal. lia.
  - rewrite Nat.add_0_r in *.
    rewrite (getitem_fmap_nat _ _ _ _ Hk). simpl.
    replace (Z.of_nat (cpp.MatrixCSR.bs A).1 * Z.of_nat (cpp.MatrixCSR.bs A).2 * Z.of_nat k)%Z
      with (Z.of_nat (k * cpp.MatrixCSR.block_len A))
      by (unfold cpp.MatrixCSR.block_len; lia).
    rewrite wrap64_small.
    2:{ assert (k * cpp.MatrixCSR.block_len A ≤ length (cpp.MatrixCSR.data A)); [|lia].
        rewrite Hdata. by apply Nat.mul_le_mono_r. }
    replace (Z.of_nat (cpp.IndexMap.size_local (cpp.MatrixCSR.index_map0 A)) + 1)%Z
      with (Z.of_nat (cpp.IndexMap.size_local (cpp.MatrixCSR.index_map0 A) + 1)) by lia.
    rewrite !slice_to_nat, !fmap_take. done.
Qed.

Lemma to_scipy_wf (self : MatrixCSR.t T) (ghosted : bool) :
  let A := MatrixCSR._cpp_object self in
  cpp.MatrixCSR.wf A →
  let n := local_rows A ghosted in
  let k := local_nnz A ghosted in
  let d := take (k * cpp.MatrixCSR.block_len A) (cpp.MatrixCSR.data A) in
  let i := Z.of_nat <$> take k (cpp.MatrixCSR.indices A) in
  let p := Z.of_nat <$> take (n + 1) (cpp.MatrixCSR.indptr A) in
  let bs0 := (cpp.MatrixCSR.bs A).1 in
  let bs1 := (cpp.MatrixCSR.bs A).2 in
  MatrixCSR.to_scipy self ghosted =
    Ok (if decide (bs0 = 1 ∧ bs1 = 1) then
          scipy.csr_matrix d i p (Z.of_nat n, Z.of_nat (local_cols A))
        else
          scipy.bsr_matrix (ndarray.chunks bs1 bs0 <$> ndarray.chunks (bs0 * bs1) k d) i p
            ((Z.of_nat bs0 * Z.of_nat n)%Z, (Z.of_nat bs1 * Z.of_nat (local_cols A))%Z)).
Proof.
  intros A Hwf n k d i p bs0 bs1.
  pose proof (to_scipy_selection self ghosted Hwf) as Hsel.
  destruct (local_nnz_le A ghosted Hwf) as (Hk & Hle & _). fold k in Hle.
  pose proof (cpp.MatrixCSR.wf_data_length A Hwf) as Hdata.
  destruct (cpp.MatrixCSR.wf_bs A Hwf) as [Hbs0 Hbs1]. fold bs0 bs1 in Hbs0, Hbs1.
  unfold MatrixCSR.to_scipy.
  unfold MatrixCSR.index_map, cpp.MatrixCSR.index_map. simpl.
  unfold MatrixCSR.block_size in *. fold A bs0 bs1 in Hsel |- *. simpl in Hsel.
  rewrite Hsel. simpl. fold n k d i p.
  destruct (decide (bs0 = 1 ∧ bs1 = 1)) as [[-> ->]|Hne].
  - simpl. unfold local_cols, MatrixCSR.size_local, MatrixCSR.num_ghosts. do 3 f_equal. lia.
  - destruct (Z.eqb_spec (Z.of_nat bs0) 1) as [?|?], (Z.eqb_spec (Z.of_nat bs1) 1) as [?|?];
      try (exfalso; apply Hne; lia); simpl.
    all: assert (Hd : length d = k * (bs0 * bs1))
      by (subst d; rewrite length_take, Hdata; unfold cpp.MatrixCSR.block_len;
          fold bs0 bs1; apply Nat.min_l, Nat.mul_le_mono_r, Hle).
    all: unfold ndarray.reshape3; rewrite Hd.
    all: destruct (Z.ltb_spec 0 (Z.of_nat bs0)) as [_|?]; [|lia].
    all: destruct (Z.ltb_spec 0 (Z.of_nat bs1)) as [_|?]; [|lia].
    all: replace (Z.of_nat (k * (bs0 * bs1)) mod (Z.of_nat bs0 * Z.of_nat bs1))%Z with 0%Z
      by (rewrite Nat2Z.inj_mul, Nat2Z.inj_mul, Z.mod_mul; lia).
    all: simpl; rewrite !Nat2Z.id, Nat.div_mul by lia.
    all: unfold local_cols, MatrixCSR.size_local, MatrixCSR.num_ghosts; do 3 f_equal; lia.
Qed.
Lemma concat_concat_chunks (b1 b0 : nat) (blocks : list (list T)) :
  Forall (λ blk, length blk = b0 * b1) blocks →
  concat (concat (ndarray.chunks b1 b0 <$> blocks)) = concat blocks.
Proof.
  induction 1 as [|blk blocks Hblk _ IH]; [done|].
  rewrite fmap_cons, !concat_cons, concat_app, IH, concat_chunks; [done|lia].
Qed.

Lemma to_scipy_returns (self : MatrixCSR.t T) (ghosted : bool) :
  cpp.MatrixCSR.wf (MatrixCSR._cpp_object self) →
  ∃ m, MatrixCSR.to_scipy self ghosted = Ok m.
Proof. intros Hwf. eexists. apply (to_scipy_wf self ghosted Hwf). Qed.

Lemma to_scipy_arrays (self : MatrixCSR.t T) (ghosted : bool) m :
  let A := MatrixCSR._cpp_object self in
  cpp.MatrixCSR.wf A → MatrixCSR.to_scipy self ghosted = Ok m →
  scipy.indptr m = take (local_rows A ghosted + 1) (MatrixCSR.indptr self) ∧
  scipy.indices m = take (local_nnz A ghosted) (MatrixCSR.indices self) ∧
  scipy.shape m =
    ((Z.of_nat (cpp.MatrixCSR.bs A).1 * Z.of_nat (local_rows A ghosted))%Z,
     (Z.of_nat (cpp.MatrixCSR.bs A).2 * Z.of_nat (local_cols A))%Z).
Proof.
  intros A Hwf. rewrite (to_scipy_wf self ghosted Hwf). fold A. intros [= <-].
  unfold MatrixCSR.indptr, MatrixCSR.indices. fold A. rewrite !fmap_take.
  destruct (decide _) as [[E0 E1]|_]; simpl; [|done].
  rewrite E0, E1. repeat split. f_equal; lia.
Qed.

Lemma to_scipy_values (self : MatrixCSR.t T) (ghosted : bool) m :
  let A := MatrixCSR._cpp_object self in
  cpp.MatrixCSR.wf A → MatrixCSR.to_scipy self ghosted = Ok m →
  scipy.values m =
    take (local_nnz A ghosted * cpp.MatrixCSR.block_len A) (cpp.MatrixCSR.data A) ∧
  length (scipy.values m) = local_nnz A ghosted * cpp.MatrixCSR.block_len A ∧
  block_shaped (cpp.MatrixCSR.bs A).1 (cpp.MatrixCSR.bs A).2 (local_nnz A ghosted) m.
Proof.
  intros A Hwf. rewrite (to_scipy_wf self ghosted Hwf). fold A. intros [= <-].
  destruct (local_nnz_le A ghosted Hwf) as (_ & Hle & _).
  pose proof (cpp.MatrixCSR.wf_data_length A Hwf) as Hdata.
  set (k := local_nnz A ghosted) in *.
  set (d := take (k * cpp.MatrixCSR.block_len A) (cpp.MatrixCSR.data A)).
  assert (Hd : length d = k * cpp.MatrixCSR.block_len A).
  { subst d. rewrite length_take, Hdata. by apply Nat.min_l, Nat.mul_le_mono_r. }
  unfold cpp.MatrixCSR.block_len in *.
  destruct (decide _) as [[E0 E1]|_]; simpl.
  - rewrite E0, E1 in *. repeat split; lia.
  - pose proof (chunks_lengths _ _ d Hd) as Hblocks.
    rewrite concat_concat_chunks, concat_chunks by done.
    split; [done|]. split; [done|]. split.
    + by rewrite length_fmap, length_chunks.
    + apply Forall_fmap. eapply Forall_impl; [|exact Hblocks]. simpl.
      intros blk Hblk. split; [apply length_chunks|].
      apply chunks_lengths. lia.
Qed.

(** C2. For a matrix that satisfies the invariant of the native class,
    the exposed arrays have the CSR shape: [indptr] has one entry per
    local row plus one and ends at the number of stored blocks, which is
    the length of [indices], and [data] has [bs0 * bs1] scalars per
    block.  [to_scipy(ghosted=False)] returns a matrix built from the
    prefixes for the owned rows: [indptr[: size_local + 1]],
    [indices[: nnzlocal]] and [data[: bs0 * bs1 * nnzlocal]] with
    [nnzlocal = indptr[size_local]], of exactly these lengths, the data
    being [nnzlocal] contiguous blocks of [bs0] rows of [bs1] scalars. *)
Theorem to_scipy_shape_contract (self : MatrixCSR.t T) :
  let A := MatrixCSR._cpp_object self in
  let bs0 := (cpp.MatrixCSR.bs A).1 in
  let bs1 := (cpp.MatrixCSR.bs A).2 in
  let size_local := cpp.IndexMap.size_local (cpp.MatrixCSR.index_map0 A) in
  cpp.MatrixCSR.wf A →
  (length (MatrixCSR.indptr self) = local_rows A true + 1 ∧
   MatrixCSR.indptr self !! local_rows A true =
     Some (Z.of_nat (length (MatrixCSR.indices self))) ∧
   length (MatrixCSR.data self) = bs0 * bs1 * length (MatrixCSR.indices self)) ∧
  ∃ nnzlocal m,
    MatrixCSR.indptr self !! size_local = Some (Z.of_nat nnzlocal) ∧
    MatrixCSR.to_scipy self false = Ok m ∧
    scipy.indptr m = take (size_local + 1) (MatrixCSR.indptr self) ∧
    length (scipy.indptr m) = size_local + 1 ∧
    scipy.indices m = take nnzlocal (MatrixCSR.indices self) ∧
    length (scipy.indices m) = nnzlocal ∧
    scipy.values m = take (bs0 * bs1 * nnzlocal) (MatrixCSR.data self) ∧
    length (scipy.values m) = bs0 * bs1 * nnzlocal ∧
    block_shaped bs0 bs1 nnzlocal m.
Proof.
  intros A bs0 bs1 size_local Hwf.
  pose proof (cpp.MatrixCSR.wf_indptr_length A Hwf) as Hlen.
  pose proof (cpp.MatrixCSR.wf_data_length A Hwf) as Hdata.
  destruct (local_nnz_le A true Hwf) as (Hk1 & _ & Hfull).
  destruct (local_nnz_le A false Hwf) as (Hk & Hle & _).
  assert (Hrows : local_rows A false = size_local) by (unfold local_rows; lia).
  rewrite Hrows in Hk.
  split.
  { unfold MatrixCSR.indptr, MatrixCSR.indices, MatrixCSR.data. fold A.
    rewrite !length_fmap, !list_lookup_fmap.
    split; [unfold local_rows; lia|]. split.
    - rewrite Hk1, Hfull by done. done.
    - rewrite Hdata. unfold cpp.MatrixCSR.block_len. fold bs0 bs1. lia. }
  destruct (to_scipy_returns self false Hwf) as [m Hm].
  destruct (to_scipy_arrays self false m Hwf Hm) as (Hp & Hi & _).
  destruct (to_scipy_values self false m Hwf Hm) as (Hv & Hvlen & Hshape).
  fold A in Hp, Hi, Hv, Hvlen, Hshape. rewrite Hrows in Hp.
  unfold cpp.MatrixCSR.block_len in Hv, Hvlen. fold bs0 bs1 in Hv, Hvlen, Hshape.
  exists (local_nnz A false), m.
  replace (bs0 * bs1 * local_nnz A false) with (local_nnz A false * (bs0 * bs1)) by lia.
  split. { unfold MatrixCSR.indptr. fold A. by rewrite list_lookup_fmap, Hk. }
  split; [done|]. split; [done|].
  split. { rewrite Hp. unfold MatrixCSR.indptr. fold A. rewrite length_take, length_fmap. lia. }
  split; [done|].
  split. { rewrite Hi. unfold MatrixCSR.indices. fold A. rewrite length_take, length_fmap. lia. }
  done.
Qed.

(** C10. Whenever [to_scipy] returns, with [ghosted] true or false, the
    column dimension of the returned matrix is [bs1] times the number of
    local columns of the column map, [size_local + num_ghosts] (for CSR,
    where [bs1 = 1], that number itself).  For a matrix that satisfies
    the invariant of the native class it does return; the row dimension
    is [bs0] times the owned rows only when [ghosted] is false; and
    every stored column index, a ghost column's included, is a block
    column within that shape. *)
Theorem to_scipy_column_range (self : MatrixCSR.t T) (ghosted : bool) :
  let A := MatrixCSR._cpp_object self in
  let bs0 := Z.of_nat (cpp.MatrixCSR.bs A).1 in
  let bs1 := Z.of_nat (cpp.MatrixCSR.bs A).2 in
  let column_map := cpp.MatrixCSR.index_map1 A in
  let ncols := (MatrixCSR.size_local column_map + MatrixCSR.num_ghosts column_map)%Z in
  MatrixCSR.index_map self 1 = Ok column_map ∧
  (∀ m, MatrixCSR.to_scipy self ghosted = Ok m → (scipy.shape m).2 = (bs1 * ncols)%Z) ∧
  (cpp.MatrixCSR.wf A →
   ∃ m, MatrixCSR.to_scipy self ghosted = Ok m ∧
        scipy.shape m = ((bs0 * Z.of_nat (local_rows A ghosted))%Z, (bs1 * ncols)%Z) ∧
        Forall (λ j, (0 ≤ j ∧ bs1 * (j + 1) ≤ bs1 * ncols)%Z) (scipy.indices m)).
Proof.
  intros A bs0 bs1 column_map ncols. split; [reflexivity|]. split.
  - intros m. unfold MatrixCSR.to_scipy, MatrixCSR.index_map, cpp.MatrixCSR.index_map.
    unfold MatrixCSR.block_size. fold A bs0 bs1. simpl. fold column_map ncols.
    destruct (if ghosted then _ else _) as [[[[nrows d] i] p]|]; simpl; [|done].
    destruct (Z.eqb_spec bs0 1) as [E0|_], (Z.eqb_spec bs1 1) as [E1|_]; simpl;
      try (destruct (ndarray.reshape3 d bs0 bs1); simpl; [|done]);
      intros [= <-]; simpl; lia.
  - intros Hwf.
    destruct (to_scipy_returns self ghosted Hwf) as [m Hm]. exists m.
    destruct (to_scipy_arrays self ghosted m Hwf Hm) as (_ & Hi & Hshape).
    fold A in Hi, Hshape. split; [done|]. split.
    { rewrite Hshape. unfold ncols, column_map, local_cols,
        MatrixCSR.size_local, MatrixCSR.num_ghosts. f_equal. lia. }
    rewrite Hi. apply Forall_take. unfold MatrixCSR.indices. fold A.
    apply Forall_fmap.
    eapply Forall_impl; [|exact (cpp.MatrixCSR.wf_columns A Hwf)].
    simpl. intros j Hj. fold column_map in Hj. split; [lia|].
    apply Z.mul_le_mono_nonneg_l; [lia|].
    unfold ncols, MatrixCSR.size_local, MatrixCSR.num_ghosts. lia.
Qed.

End to_scipy_facts.

(** *** The example matrices *)

Lemma example_csr_wf : cpp.MatrixCSR.wf example_csr.
Proof.
  split; simpl; try lia.
  - intros [|[|[|[|i]]]] lo hi; simpl; intros ? ?; simplify_eq; lia.
  - done.
  - repeat constructor.
Qed.

Lemma example_bsr_wf : cpp.MatrixCSR.wf example_bsr.
Proof.
  split; simpl; try lia.
  - intros [|[|[|[|i]]]] lo hi; simpl; intros ? ?; simplify_eq; lia.
  - done.
  - repeat constructor.
Qed.

Example to_scipy_example_csr :
  MatrixCSR.to_scipy (MatrixCSR.__init__ example_csr) false =
    Ok (scipy.csr_matrix [10; 20; 30; 40] [0; 1; 1; 2] [0; 2; 4] (2, 3))%Z ∧
  MatrixCSR.to_scipy (MatrixCSR.__init__ example_csr) true =
    Ok (scipy.csr_matrix [10; 20; 30; 40; 50] [0; 1; 1; 2; 0] [0; 2; 4; 5] (3, 3))%Z.
Proof. split; reflexivity. Qed.

Example to_scipy_example_bsr :
  MatrixCSR.to_scipy (MatrixCSR.__init__ example_bsr) false =
    Ok (scipy.bsr_matrix
          [[[10]; [11]]; [[20]; [21]]; [[30]; [31]]; [[40]; [41]]]
          [0; 1; 1; 2] [0; 2; 4] (4, 3))%Z.
Proof. reflexivity. Qed.

Lemma to_scipy_shape_contract_witness :
  cpp.MatrixCSR.wf example_bsr ∧
  ∃ nnzlocal m,
    MatrixCSR.indptr (MatrixCSR.__init__ example_bsr) !! 2 = Some (Z.of_nat nnzlocal) ∧
    MatrixCSR.to_scipy (MatrixCSR.__init__ example_bsr) false = Ok m ∧
    length (scipy.indptr m) = 3 ∧
    length (scipy.indices m) = nnzlocal ∧
    length (scipy.values m) = 2 * 1 * nnzlocal.
Proof.
  split; [exact example_bsr_wf|].
  destruct (to_scipy_shape_contract (MatrixCSR.__init__ example_bsr) example_bsr_wf)
    as (_ & nnzlocal & m & H1 & H2 & _ & H4 & _ & H6 & _ & H8 & _).
  exists nnzlocal, m. repeat split; assumption.
Defined.

Lemma to_scipy_column_range_witness :
  cpp.MatrixCSR.wf example_csr ∧
  ∃ m, MatrixCSR.to_scipy (MatrixCSR.__init__ example_csr) false = Ok m ∧
       scipy.shape m = (2, 3)%Z ∧
       Forall (λ j, (0 ≤ j ∧ 1 * (j + 1) ≤ 1 * 3)%Z) (scipy.indices m).
Proof.
  split; [exact example_csr_wf|].
  destruct (to_scipy_column_range (MatrixCSR.__init__ example_csr) false)
    as (_ & _ & Hwf).
  destruct (Hwf example_csr_wf) as (m & Hm & Hshape & Hin).
  exists m. split; [exact Hm|]. split; [exact Hshape|exact Hin].
Defined.

(** ** In-place updates *)

Section update_facts.
Context {T : Type}.
Implicit Types (a : list T) (ups : list (nat * T)).

Lemma apply_updates_cons (op : T → T → T) u ups a :
  cpp.apply_updates op (u :: ups) a =
    cpp.apply_updates op ups (alter (λ y, op y u.2) u.1 a).
Proof. reflexivity. Qed.

Lemma apply_updates_app (op : T → T → T) ups1 ups2 a :
  cpp.apply_updates op (ups1 ++ ups2) a =
    cpp.apply_updates op ups2 (cpp.apply_updates op ups1 a).
Proof. apply foldl_app. Qed.

Lemma length_apply_updates (op : T → T → T) ups a :
  length (cpp.apply_updates op ups a) = length a.
Proof.
  revert a. induction ups as [|u ups IH]; intros a; [done|].
  rewrite apply_updates_cons, IH. apply length_alter.
Qed.

(** Overwriting entries below [n] with what they hold leaves the first
    [n] entries as they are. *)
Lemma apply_updates_overwrite_same (n : nat) ups a0 a :
  (∀ i x, (i, x) ∈ ups → i < n → a0 !! i = Some x) →
  take n a = take n a0 →
  take n (cpp.apply_updates (λ _ x, x) ups a) = take n a0.
Proof.
  revert a. induction ups as [|[i x] ups IH]; intros a Hups Ha; [done|].
  rewrite apply_updates_cons. apply IH.
  - intros j y Hj. apply Hups. by right.
  - simpl. destruct (decide (i < n)) as [Hi|Hi].
    + assert (a !! i = Some x) as Hai.
      { rewrite <- (lookup_take_lt a n i), Ha, lookup_take_lt by done.
        apply Hups; [by left|done]. }
      rewrite <- Ha. f_equal. apply list_eq. intros j.
      destruct (decide (i = j)) as [<-|Hne].
      * by rewrite list_lookup_alter_eq, Hai.
      * by rewrite list_lookup_alter_ne.
    + rewrite take_alter_ge by lia. done.
Qed.

Lemma take_imap_id (n : nat) (f : nat → T → T) a :
  (∀ j x, j < n → f j x = x) → take n (imap f a) = take n a.
Proof.
  intros Hf. apply list_eq. intros j.
  destruct (decide (j < n)) as [Hj|Hj].
  - rewrite !lookup_take_lt, list_lookup_imap by done.
    destruct (a !! j); simpl; [|done]. by rewrite Hf.
  - by rewrite !lookup_take_ge by lia.
Qed.

End update_facts.

(** ** Ghost exchange of a vector *)

Section scatter_facts.
Context {T : Type} `{Scalar T}.
Implicit Types (comm : list (cpp.Vector.t T)) (v w : cpp.Vector.t T).

Lemma scatter_forward_lookup comm p :
  cpp.Vector.scatter_forward comm !! p = cpp.Vector.forwarded comm <$> comm !! p.
Proof. apply list_lookup_fmap. Qed.

Lemma scatter_forward_index_maps comm :
  cpp.Vector.index_map <$> cpp.Vector.scatter_forward comm = cpp.Vector.index_map <$> comm.
Proof. unfold cpp.Vector.scatter_forward. rewrite <- list_fmap_compose. done. Qed.

Lemma forwarded_owned_size comm v :
  cpp.Vector.owned_size (cpp.Vector.forwarded comm v) = cpp.Vector.owned_size v.
Proof. reflexivity. Qed.

Lemma forwarded_lookup_owned comm v j :
  j < cpp.Vector.owned_size v →
  cpp.Vector.array (cpp.Vector.forwarded comm v) !! j = cpp.Vector.array v !! j.
Proof.
  intros Hj. simpl. rewrite list_lookup_imap.
  unfold cpp.Vector.ghost_source. rewrite decide_True by done.
  by destruct (cpp.Vector.array v !! j).
Qed.

Lemma forwarded_owned comm v :
  cpp.Vector.owned (cpp.Vector.forwarded comm v) = cpp.Vector.owned v.
Proof.
  unfold cpp.Vector.owned. rewrite forwarded_owned_size. simpl.
  apply take_imap_id. intros j x Hj.
  unfold cpp.Vector.ghost_source. by rewrite decide_True.
Qed.

Lemma ghost_table_lookup (m : cpp.IndexMap.t) k g q :
  (k, (g, q)) ∈ cpp.IndexMap.ghost_table m →
  cpp.IndexMap.ghosts m !! k = Some g ∧ cpp.IndexMap.owners m !! k = Some q.
Proof.
  unfold cpp.IndexMap.ghost_table. intros Hin.
  apply elem_of_lookup_imap in Hin as (k' & [g' q'] & [= -> -> ->] & Hz).
  by apply lookup_zip_Some in Hz.
Qed.

(** After a forward scatter, what a rank would send back for an owned
    entry is what the owner holds there. *)
Lemma outgoing_after_forward comm v p pos x w :
  cpp.Vector.wf w →
  v ∈ comm → comm !! p = Some w →
  (p, pos, x) ∈ cpp.Vector.outgoing (cpp.Vector.index_map <$> comm) (cpp.Vector.forwarded comm v) →
  pos < cpp.Vector.owned_size w →
  cpp.Vector.array w !! pos = Some x.
Proof.
  intros Hwf Hv Hw Hout Hpos. unfold cpp.Vector.outgoing in Hout.
  apply list_elem_of_bind in Hout as ([k [g q]] & Hout & Hk).
  apply ghost_table_lookup in Hk as [Hg Hq].
  apply list_elem_of_bind in Hout as (c & Hout & Hc).
  apply elem_of_seq in Hc as [_ Hc]. simpl in Hc, Hg, Hq, Hout.
  rewrite list_lookup_imap in Hout.
  set (b := cpp.Vector.bs v) in *.
  set (sl := cpp.IndexMap.size_local (cpp.Vector.index_map v)) in *.
  destruct (cpp.Vector.array v !! (b * (sl + k) + c)) as [x0|] eqn:Hx0;
    simpl in Hout; [|by apply elem_of_nil in Hout].
  apply list_elem_of_singleton in Hout. injection Hout as -> -> ->.
  destruct (lookup_lt_is_Some_2 (cpp.Vector.array w)
    (b * cpp.IndexMap.local_of (cpp.Vector.index_map <$> comm) q g + c)) as [y Hy].
  { unfold cpp.Vector.wf in Hwf. unfold cpp.Vector.owned_size in Hpos. nia. }
  rewrite Hy. f_equal.
  unfold cpp.Vector.ghost_source. unfold cpp.Vector.owned_size. fold b sl.
  rewrite decide_False by lia.
  replace (b * (sl + k) + c - b * sl) with (c + k * b) by lia.
  rewrite Nat.div_add, Nat.Div0.mod_add, Nat.div_small, Nat.mod_small by lia.
  simpl. rewrite Hg. simpl. rewrite Hq. simpl. rewrite Hw. simpl. by rewrite Hy.
Qed.


Lemma inbox_after_forward comm p w i x :
  Forall cpp.Vector.wf comm → comm !! p = Some w →
  (i, x) ∈ cpp.Vector.inbox (cpp.Vector.scatter_forward comm) p →
  i < cpp.Vector.owned_size w →
  cpp.Vector.array (cpp.Vector.forwarded comm w) !! i = Some x.
Proof.
  intros Hwf Hw Hin Hi. unfold cpp.Vector.inbox in Hin.
  apply list_elem_of_fmap in Hin as ([[q j] y] & [= -> ->] & Hin).
  apply list_elem_of_filter in Hin as [Hq Hin]. simpl in Hq. subst q.
  apply list_elem_of_bind in Hin as (v' & Hout & Hv').
  apply list_elem_of_fmap in Hv' as (v & -> & Hv).
  rewrite scatter_forward_index_maps in Hout.
  rewrite forwarded_lookup_owned by done.
  eapply outgoing_after_forward; [|exact Hv|exact Hw|exact Hout|exact Hi].
  by eapply Forall_lookup_1.
Qed.

Lemma scatter_roundtrip_native comm p w :
  Forall cpp.Vector.wf comm → comm !! p = Some w →
  ∃ w', cpp.Vector.scatter_reverse cpp.insert (cpp.Vector.scatter_forward comm) !! p = Some w' ∧
        cpp.Vector.owned w' = cpp.Vector.owned w ∧
        cpp.Vector.index_map w' = cpp.Vector.index_map w ∧
        cpp.Vector.bs w' = cpp.Vector.bs w.
Proof.
  intros Hwf Hw. eexists. split.
  { unfold cpp.Vector.scatter_reverse. rewrite list_lookup_imap, scatter_forward_lookup, Hw.
    reflexivity. }
  split; [|done].
  rewrite <- (forwarded_owned comm w). unfold cpp.Vector.owned at 1 2.
  change (cpp.Vector.owned_size (cpp.Vector.with_array _ _))
    with (cpp.Vector.owned_size (cpp.Vector.forwarded comm w)).
  apply apply_updates_overwrite_same; [|done].
  intros i x Hin Hi. by eapply inbox_after_forward.
Qed.

Lemma fmap_cpp_object_zip_with (comm : list (Vector.t T)) (xs : list (cpp.Vector.t T)) :
  length xs = length comm →
  Vector._cpp_object <$> zip_with Vector.with_cpp_object comm xs = xs.
Proof.
  revert xs. induction comm as [|self comm IH]; intros [|x xs] Hlen; simplify_eq/=; [done|].
  by rewrite IH.
Qed.

Lemma scatter_forward_cpp_objects (comm : list (Vector.t T)) :
  Vector._cpp_object <$> Vector.scatter_forward comm =
    cpp.Vector.scatter_forward (Vector._cpp_object <$> comm).
Proof.
  apply fmap_cpp_object_zip_with.
  unfold cpp.Vector.scatter_forward. by rewrite !length_fmap.
Qed.

(** C4. On a distributed vector whose local arrays have their proper
    lengths, [scatter_forward] followed at once by
    [scatter_reverse(insert)] leaves the owned entries of every rank as
    they were (and the layout with them). *)
Theorem scatter_forward_reverse_insert (comm : list (Vector.t T)) :
  Forall (λ self, cpp.Vector.wf (Vector._cpp_object self)) comm →
  ∀ p self, comm !! p = Some self →
    ∃ self',
      Vector.scatter_reverse (Vector.scatter_forward comm) cpp.insert !! p = Some self' ∧
      cpp.Vector.owned (Vector._cpp_object self') = cpp.Vector.owned (Vector._cpp_object self) ∧
      Vector.index_map self' = Vector.index_map self ∧
      Vector.block_size self' = Vector.block_size self.
Proof.
  intros Hwf p self Hself.
  destruct (scatter_roundtrip_native (Vector._cpp_object <$> comm) p (Vector._cpp_object self))
    as (w' & Hw' & Howned & Hmap & Hbs).
  { by apply Forall_fmap. }
  { by rewrite list_lookup_fmap, Hself. }
  unfold Vector.scatter_reverse. rewrite scatter_forward_cpp_objects.
  rewrite lookup_zip_with, Hw'.
  unfold Vector.scatter_forward at 1. rewrite lookup_zip_with, Hself. simpl.
  rewrite scatter_forward_lookup, list_lookup_fmap, Hself. simpl.
  eexists. split; [reflexivity|]. done.
Qed.

End scatter_facts.

(** *** The example vector *)

Example scatter_forward_example :
  Vector.array <$> Vector.scatter_forward example_vector = [[1; 2; 3]; [3; 4; 2]]%Z ∧
  Vector.array <$> Vector.scatter_reverse example_vector cpp.insert = [[1; 7; 0]; [0; 4; 7]]%Z ∧
  Vector.array <$> Vector.scatter_reverse example_vector cpp.add = [[1; 9; 0]; [3; 4; 7]]%Z.
Proof. repeat split; reflexivity. Qed.

Lemma scatter_forward_reverse_insert_witness :
  Forall (λ self, cpp.Vector.wf (Vector._cpp_object self)) example_vector ∧
  ∃ self',
    Vector.scatter_reverse (Vector.scatter_forward example_vector) cpp.insert !! 1
      = Some self' ∧
    cpp.Vector.owned (Vector._cpp_object self') = [3; 4]%Z.
Proof.
  assert (Hwf : Forall (λ self, cpp.Vector.wf (Vector._cpp_object self)) example_vector)
    by (repeat constructor).
  split; [exact Hwf|].
  destruct (scatter_forward_reverse_insert example_vector Hwf 1 _ eq_refl)
    as (self' & Hself' & Howned & _).
  exists self'. split; [exact Hself'|exact Howned].
Defined.

(** ** Lists built by [bind] *)

Section bind_facts.
Context {A B : Type}.

Lemma filter_bind (P : B → Prop) `{!∀ y, Decision (P y)} (f : A → list B) (l : list A) :
  filter P (l ≫= f) = l ≫= (λ x, filter P (f x)).
Proof.
  induction l as [|x l IH]; [done|].
  by rewrite !bind_cons, list.filter_app, IH.
Qed.

Lemma filter_all (P : B → Prop) `{!∀ y, Decision (P y)} (l : list B) :
  (∀ y, y ∈ l → P y) → filter P l = l.
Proof.
  intros HP. induction l as [|y l IH]; [done|].
  rewrite filter_cons_True by (apply HP; by left).
  rewrite IH; [done|]. intros z Hz. apply HP. by right.
Qed.

Lemma filter_none (P : B → Prop) `{!∀ y, Decision (P y)} (l : list B) :
  (∀ y, y ∈ l → ¬ P y) → filter P l = [].
Proof.
  intros HP. induction l as [|y l IH]; [done|].
  rewrite filter_cons_False by (apply HP; by left).
  apply IH. intros z Hz. apply HP. by right.
Qed.

Lemma fmap_bind {C} (g : B → C) (f : A → list B) (l : list A) :
  g <$> (l ≫= f) = l ≫= (λ x, g <$> f x).
Proof.
  induction l as [|x l IH]; [done|].
  by rewrite !bind_cons, fmap_app, IH.
Qed.

Lemma bind_ext_in (f g : A → list B) (l : list A) :
  (∀ x, x ∈ l → f x = g x) → l ≫= f = l ≫= g.
Proof.
  intros Hfg. induction l as [|x l IH]; [done|].
  rewrite !bind_cons, Hfg, IH; [done| |by left].
  intros y Hy. apply Hfg. by right.
Qed.

Lemma bind_nil_const (l : list A) : l ≫= (λ _, @nil B) = [].
Proof. induction l as [|x l IH]; [done|]. by rewrite bind_cons, IH. Qed.

End bind_facts.

(** Of a bind over consecutive numbers that is empty except at [i], the
    part at [i] remains. *)
Lemma bind_seq_pick {B} (g : nat → list B) (i s n : nat) :
  s ≤ i < s + n →
  (j ← seq s n; if decide (j = i) then g j else []) = g i.
Proof.
  revert s. induction n as [|n IH]; intros s Hi; [lia|].
  rewrite <- cons_seq, bind_cons.
  destruct (decide (s = i)) as [->|Hne].
  - rewrite (bind_ext_in _ (λ _, [])), bind_nil_const, app_nil_r; [done|].
    intros j [? ?]%elem_of_seq. by rewrite decide_False by lia.
  - rewrite IH by lia. done.
Qed.

(** ** [add] and [set] on a stored block *)

Section block_update_facts.
Context {T : Type}.
Implicit Types (a x : list T) (ups : list (nat * T)).

(** Updates in place: an entry ends as the updates addressed to it,
    first to last, make it. *)
Lemma apply_updates_lookup (op : T → T → T) ups a q :
  cpp.apply_updates op ups a !! q =
    (λ y, foldl op y (snd <$> filter (λ u, u.1 = q) ups)) <$> a !! q.
Proof.
  revert a. induction ups as [|u ups IH]; intros a.
  - simpl. by destruct (a !! q).
  - rewrite apply_updates_cons, IH, list.filter_cons.
    destruct (decide (u.1 = q)) as [<-|Hne].
    + rewrite list_lookup_alter_eq. by destruct (a !! u.1).
    + by rewrite list_lookup_alter_ne.
Qed.

Lemma seq_bind_take_drop (m a n : nat) x :
  (i ← seq a n; take m (drop (i * m) x)) = take (n * m) (drop (a * m) x).
Proof.
  revert a. induction n as [|n IH]; intros a; [done|].
  rewrite <- cons_seq, bind_cons, IH.
  replace (S a * m) with (a * m + m) by lia.
  rewrite <- drop_drop, take_take_drop. f_equal.
Qed.

End block_update_facts.

Section insert_facts.
Context {T : Type} `{Scalar T}.
Implicit Types (A : cpp.MatrixCSR.t T) (x : list T).

Lemma find_slot_Some A r c k :
  cpp.MatrixCSR.find_slot A r c = Some k →
  k ∈ cpp.MatrixCSR.row_entries A r ∧ cpp.MatrixCSR.indices A !! k = Some c.
Proof.
  unfold cpp.MatrixCSR.find_slot. intros Hf.
  apply fmap_Some in Hf as ([i k'] & Hf & ->). simpl.
  apply list_find_Some in Hf as (Hi & Hc & _).
  split; [by eapply list_elem_of_lookup_2|done].
Qed.

(** The updates of a call for the single block [(r, c)], stored at [k],
    that are addressed to position [q]. *)
Lemma block_updates_single A x k q :
  filter (λ u, u.1 = q) (cpp.MatrixCSR.block_updates A x 1 0 0 k) =
    if decide (k * cpp.MatrixCSR.block_len A ≤ q
               < k * cpp.MatrixCSR.block_len A + cpp.MatrixCSR.block_len A) then
      match x !! (q - k * cpp.MatrixCSR.block_len A) with
      | Some v => [(q, v)]
      | None => []
      end
    else [].
Proof.
  unfold cpp.MatrixCSR.block_updates.
  set (B := cpp.MatrixCSR.block_len A). set (b1 := (cpp.MatrixCSR.bs A).2).
  rewrite filter_bind.
  assert (Hidx : ∀ t, (0 * (cpp.MatrixCSR.bs A).1 + t / b1) * (1 * b1) + 0 * b1 + t mod b1 = t).
  { intros t. pose proof (Nat.div_mod_eq t b1). nia. }
  case_decide as Hq.
  - rewrite (bind_ext_in _ (λ t, if decide (t = q - k * B)
               then match x !! (q - k * B) with Some v => [(q, v)] | None => [] end
               else [])).
    { by rewrite bind_seq_pick by lia. }
    intros t _. rewrite Hidx.
    destruct (decide (t = q - k * B)) as [->|Hne].
    + destruct (x !! (q - k * B)); [|done].
      rewrite filter_cons_True by (simpl; lia). do 2 f_equal. lia.
    + destruct (x !! t); [|done]. rewrite filter_cons_False by (simpl; lia). done.
  - rewrite (bind_ext_in _ (λ _, [])); [apply bind_nil_const|].
    intros t [_ Ht]%elem_of_seq. rewrite Hidx.
    destruct (x !! t); [|done]. rewrite filter_cons_False by (simpl; lia). done.
Qed.

(** One call of [add] or [set] (combining with [op]) for the single
    block [(r, c)] of the pattern: it returns, and changes the scalars
    of that block only. *)
Lemma insert_csr_single (op : T → T → T) A x r c b k :
  cpp.MatrixCSR.find_slot A r c = Some k →
  ∃ d, cpp.MatrixCSR.insert_csr op A x [r] [c] b = Ok (cpp.MatrixCSR.with_data A d) ∧
       length d = length (cpp.MatrixCSR.data A) ∧
       ∀ q, d !! q =
         if decide (k * cpp.MatrixCSR.block_len A ≤ q
                    < k * cpp.MatrixCSR.block_len A + cpp.MatrixCSR.block_len A) then
           y ← cpp.MatrixCSR.data A !! q;
           Some (match x !! (q - k * cpp.MatrixCSR.block_len A) with
                 | Some v => op y v
                 | None => y
                 end)
         else cpp.MatrixCSR.data A !! q.
Proof.
  intros Hk. unfold cpp.MatrixCSR.insert_csr. simpl. rewrite Hk. simpl.
  rewrite !app_nil_r. eexists. split; [reflexivity|].
  split; [apply length_apply_updates|].
  intros q. rewrite apply_updates_lookup, block_updates_single.
  case_decide.
  - destruct (cpp.MatrixCSR.data A !! q) as [y|]; simpl; [|done].
    by destruct (x !! _).
  - by destruct (cpp.MatrixCSR.data A !! q).
Qed.

(** Whatever the rows and columns, a successful [add] or [set] changes
    the stored scalars only. *)
Lemma insert_csr_pattern (op : T → T → T) A x rows cols b A' :
  cpp.MatrixCSR.insert_csr op A x rows cols b = Ok A' →
  ∃ d, A' = cpp.MatrixCSR.with_data A d ∧ length d = length (cpp.MatrixCSR.data A).
Proof.
  unfold cpp.MatrixCSR.insert_csr.
  destruct (cpp.MatrixCSR.rows_updates A x cols 0 rows) as [us|]; [|done].
  simpl. intros [= <-]. eexists. split; [done|]. apply length_apply_updates.
Qed.

Lemma add_all_pattern (self self' : MatrixCSR.t T) calls b :
  add_all self calls b = Ok self' →
  ∃ d, MatrixCSR._cpp_object self' = cpp.MatrixCSR.with_data (MatrixCSR._cpp_object self) d ∧
       length d = length (cpp.MatrixCSR.data (MatrixCSR._cpp_object self)).
Proof.
  revert self. induction calls as [|[[x rows] cols] calls IH]; intros self; simpl.
  - intros [= <-]. by exists (cpp.MatrixCSR.data (MatrixCSR._cpp_object self)); destruct self as [[]].
  - unfold MatrixCSR.add at 1.
    destruct (cpp.MatrixCSR.add _ x rows cols b) as [A1|] eqn:Hadd; [|done]. simpl.
    intros (d & -> & Hd)%IH. simpl in *.
    apply (insert_csr_pattern sadd _ x rows cols b) in Hadd as (d1 & -> & Hd1).
    exists d. split; [done|]. simpl in Hd. congruence.
Qed.

(** C5 (as amended). For every matrix whose value array holds
    [bs0 * bs1] scalars per stored block, every block position [(r, c)]
    of its sparsity pattern, stored at [k], every block [v] of
    [bs0 * bs1] values and every [bs]: [add] returns and adds [v],
    scalar by scalar, to the stored block, so that the block holds the
    previous values plus [v] after one call and the previous values plus
    [v] plus [v] after a second call with the same values; every other
    scalar of the matrix is as before.  A [set] of [v] at the position,
    after any sequence of [add] calls that return (whatever their
    values, rows and columns), returns and leaves the block holding [v]
    itself, and every other scalar as the [add] calls left it. *)
Theorem add_accumulates_set_overwrites
    (self : MatrixCSR.t T) (r c k bs : nat) (v : list T) :
  let A := MatrixCSR._cpp_object self in
  let B := (cpp.MatrixCSR.bs A).1 * (cpp.MatrixCSR.bs A).2 in
  length (cpp.MatrixCSR.data A) = length (cpp.MatrixCSR.indices A) * B →
  cpp.MatrixCSR.find_slot A r c = Some k →
  length v = B →
  (∃ self1 self2,
     MatrixCSR.add self v [r] [c] bs = Ok self1 ∧
     MatrixCSR.add self1 v [r] [c] bs = Ok self2 ∧
     (∀ t, t < B →
        ∃ y x : T, MatrixCSR.data self !! (k * B + t) = Some y ∧ v !! t = Some x ∧
               MatrixCSR.data self1 !! (k * B + t) = Some (sadd y x) ∧
               MatrixCSR.data self2 !! (k * B + t) = Some (sadd (sadd y x) x)) ∧
     (∀ q, ¬ (k * B ≤ q < k * B + B) →
        MatrixCSR.data self1 !! q = MatrixCSR.data self !! q ∧
        MatrixCSR.data self2 !! q = MatrixCSR.data self !! q)) ∧
  (∀ calls bs' self',
     add_all self calls bs' = Ok self' →
     ∃ self'',
       MatrixCSR.set self' v [r] [c] bs = Ok self'' ∧
       (∀ t, t < B →
          ∃ x : T, v !! t = Some x ∧ MatrixCSR.data self'' !! (k * B + t) = Some x) ∧
       (∀ q, ¬ (k * B ≤ q < k * B + B) →
          MatrixCSR.data self'' !! q = MatrixCSR.data self' !! q)).
Proof.
  intros A B Hdata Hk Hv.
  assert (Hkn : k < length (cpp.MatrixCSR.indices A)).
  { apply find_slot_Some in Hk as [_ Hk]. by apply lookup_lt_Some in Hk. }
  assert (Hblock : ∀ t, t < B → k * B + t < length (cpp.MatrixCSR.data A))
    by (intros t Ht; rewrite Hdata; nia).
  split.
  - destruct (insert_csr_single sadd A v r c bs k Hk) as (d1 & Hadd1 & Hlen1 & Hd1).
    destruct (insert_csr_single sadd (cpp.MatrixCSR.with_data A d1) v r c bs k Hk)
      as (d2 & Hadd2 & Hlen2 & Hd2).
    change (cpp.MatrixCSR.block_len (cpp.MatrixCSR.with_data A d1)) with B in Hd2.
    change (cpp.MatrixCSR.block_len A) with B in Hd1.
    simpl in Hadd2, Hd2.
    exists {| MatrixCSR._cpp_object := cpp.MatrixCSR.with_data A d1 |},
           {| MatrixCSR._cpp_object := cpp.MatrixCSR.with_data A d2 |}.
    unfold MatrixCSR.add, cpp.MatrixCSR.add, MatrixCSR.data. fold A. simpl.
    rewrite Hadd1. simpl. rewrite Hadd2. simpl.
    split; [done|]. split; [done|]. split.
    + intros t Ht.
      destruct (lookup_lt_is_Some_2 (cpp.MatrixCSR.data A) (k * B + t)) as [y Hy];
        [by apply Hblock|].
      destruct (lookup_lt_is_Some_2 v t) as [x Hx]; [lia|].
      exists y, x. split; [done|]. split; [done|].
      assert (H1 : d1 !! (k * B + t) = Some (sadd y x)).
      { rewrite Hd1, decide_True by lia. rewrite Hy. simpl.
        replace (k * B + t - k * B) with t by lia. by rewrite Hx. }
      split; [done|].
      rewrite Hd2, decide_True by lia. rewrite H1. simpl.
      replace (k * B + t - k * B) with t by lia. by rewrite Hx.
    + intros q Hq.
      assert (H1 : d1 !! q = cpp.MatrixCSR.data A !! q) by (by rewrite Hd1, decide_False).
      split; [done|]. by rewrite Hd2, decide_False.
  - intros calls bs' self' (d & HA' & Hd)%add_all_pattern. fold A in HA', Hd.
    destruct self' as [A']. simpl in HA'. subst A'.
    destruct (insert_csr_single (λ _ y : T, y) (cpp.MatrixCSR.with_data A d) v r c bs k Hk)
      as (d2 & Hset & Hlen2 & Hd2).
    change (cpp.MatrixCSR.block_len (cpp.MatrixCSR.with_data A d)) with B in Hd2.
    simpl in Hset, Hd2.
    exists {| MatrixCSR._cpp_object := cpp.MatrixCSR.with_data A d2 |}.
    unfold MatrixCSR.set, cpp.MatrixCSR.set, MatrixCSR.data. simpl.
    rewrite Hset. simpl. split; [done|]. split.
    + intros t Ht.
      destruct (lookup_lt_is_Some_2 d (k * B + t)) as [y Hy];
        [rewrite Hd; by apply Hblock|].
      destruct (lookup_lt_is_Some_2 v t) as [x Hx]; [lia|].
      exists x. split; [done|].
      rewrite Hd2, decide_True by lia. rewrite Hy. simpl.
      replace (k * B + t - k * B) with t by lia. by rewrite Hx.
    + intros q Hq. by rewrite Hd2, decide_False.
Qed.

End insert_facts.

(** *** On the example matrices *)

Example add_set_example :
  (self1 ← MatrixCSR.add (MatrixCSR.__init__ example_csr) [5]%Z [0] [1] 1;
   self2 ← MatrixCSR.add self1 [5]%Z [0] [1] 1;
   self3 ← MatrixCSR.set self2 [7]%Z [0] [1] 1;
   Ok (MatrixCSR.data self1, MatrixCSR.data self2, MatrixCSR.data self3))
  = Ok ([10; 25; 30; 40; 50], [10; 30; 30; 40; 50], [10; 7; 30; 40; 50])%Z ∧
  MatrixCSR.add (MatrixCSR.__init__ example_csr) [5]%Z [1] [0] 1 = Raise RuntimeError.
Proof. split; reflexivity. Qed.

(** With 2 x 1 blocks: one block, and two blocks of one row at once. *)
Example add_set_example_blocks :
  (self1 ← MatrixCSR.add (MatrixCSR.__init__ example_bsr) [1; 2]%Z [0] [1] 1;
   self2 ← MatrixCSR.set self1 [3; 4; 5; 6]%Z [1] [1; 2] 1;
   Ok (MatrixCSR.data self1, MatrixCSR.data self2))
  = Ok ([10; 11; 21; 23; 30; 31; 40; 41; 50; 51],
        [10; 11; 21; 23; 3; 5; 4; 6; 50; 51])%Z.
Proof. reflexivity. Qed.

(** On a block that is not zero, two [add] calls do not store twice what
    one stores: the block at (0, 1) of the example holds 20, then 25
    after an [add] of 5, then 30, and not 50, after a second. *)
Lemma add_twice_not_double :
  cpp.MatrixCSR.find_slot example_csr 0 1 = Some 1 ∧
  stored_block (MatrixCSR.__init__ example_csr) 1 = [20]%Z ∧
  ¬ add_twice_doubles (MatrixCSR.__init__ example_csr) 0 1 1 1 [5]%Z.
Proof.
  split; [reflexivity|]. split; [reflexivity|].
  intros Hdouble. specialize (Hdouble _ _ eq_refl eq_refl). discriminate Hdouble.
Qed.

Lemma add_accumulates_set_overwrites_witness :
  cpp.MatrixCSR.find_slot example_bsr 0 1 = Some 1 ∧
  ∃ self1 self2,
    MatrixCSR.add (MatrixCSR.__init__ example_bsr) [1; 2]%Z [0] [1] 1 = Ok self1 ∧
    MatrixCSR.add self1 [1; 2]%Z [0] [1] 1 = Ok self2 ∧
    MatrixCSR.data self1 !! 3 = Some 23%Z ∧
    MatrixCSR.data self2 !! 3 = Some 25%Z ∧
    MatrixCSR.data self2 !! 4 = Some 30%Z.
Proof.
  split; [reflexivity|].
  destruct (add_accumulates_set_overwrites (MatrixCSR.__init__ example_bsr) 0 1 1 1 [1; 2]%Z
              eq_refl eq_refl eq_refl)
    as [(self1 & self2 & H1 & H2 & Hin & Hout) _].
  exists self1, self2. split; [exact H1|]. split; [exact H2|].
  destruct (Hin 1 (le_n 2)) as (y & x & Hy & Hx & Hs1 & Hs2).
  injection Hy as <-. injection Hx as <-.
  split; [exact Hs1|]. split; [exact Hs2|].
  destruct (Hout 4) as [_ H4]; [simpl; lia|]. exact H4.
Defined.

(** ** The squared norm of a matrix *)

Section squared_norm_facts.
Context {T : Type} `{Scalar T}.
Implicit Types (A : cpp.MatrixCSR.t T).

(** A change of the stored scalars that keeps their number keeps the
    invariant. *)
Lemma with_data_wf A (d : list T) :
  cpp.MatrixCSR.wf A → length d = length (cpp.MatrixCSR.data A) →
  cpp.MatrixCSR.wf (cpp.MatrixCSR.with_data A d).
Proof.
  intros [? ? ? ? ? ? ?] Hd. split; simpl; try done; rewrite Hd; done.
Qed.

Lemma row_entries_seq A i lo hi :
  cpp.MatrixCSR.indptr A !! i = Some lo → cpp.MatrixCSR.indptr A !! S i = Some hi →
  cpp.MatrixCSR.row_entries A i = seq lo (hi - lo).
Proof. unfold cpp.MatrixCSR.row_entries. by intros -> ->. Qed.

(** The blocks of the first [n] rows are stored one after the other. *)
Lemma concat_row_entries A n lo hi :
  cpp.MatrixCSR.wf A →
  cpp.MatrixCSR.indptr A !! 0 = Some lo → cpp.MatrixCSR.indptr A !! n = Some hi →
  concat (cpp.MatrixCSR.row_entries A <$> seq 0 n) = seq lo (hi - lo).
Proof.
  intros Hwf Hlo. revert hi. induction n as [|n IH]; intros hi Hhi.
  - assert (hi = lo) as -> by congruence. by rewrite Nat.sub_diag.
  - destruct (lookup_lt_is_Some_2 (cpp.MatrixCSR.indptr A) n) as [mid Hmid].
    { apply lookup_lt_Some in Hhi. lia. }
    pose proof (indptr_mono A 0 n lo mid Hwf ltac:(lia) Hlo Hmid).
    pose proof (cpp.MatrixCSR.wf_indptr_mono A Hwf n mid hi Hmid Hhi).
    rewrite seq_S, fmap_app, concat_app, (IH mid Hmid). simpl.
    rewrite (row_entries_seq A n mid hi) by done. rewrite app_nil_r.
    replace (hi - lo) with ((mid - lo) + (hi - mid)) by lia.
    rewrite seq_app. do 2 f_equal. lia.
Qed.

(** The scalars that enter the local sum are those of the owned rows: a
    slice of the value array. *)
Lemma local_squared_norm_owned A lo hi :
  cpp.MatrixCSR.wf A →
  cpp.MatrixCSR.indptr A !! 0 = Some lo →
  cpp.MatrixCSR.indptr A !! cpp.IndexMap.size_local (cpp.MatrixCSR.index_map0 A) = Some hi →
  cpp.MatrixCSR.local_squared_norm A =
    foldl sadd szero
      (snormsq <$> take ((hi - lo) * ((cpp.MatrixCSR.bs A).1 * (cpp.MatrixCSR.bs A).2))
                     (drop (lo * ((cpp.MatrixCSR.bs A).1 * (cpp.MatrixCSR.bs A).2))
                        (cpp.MatrixCSR.data A))).
Proof.
  intros Hwf Hlo Hhi. unfold cpp.MatrixCSR.local_squared_norm, cpp.MatrixCSR.owned_rows.
  rewrite (concat_row_entries A _ lo hi) by done.
  unfold cpp.MatrixCSR.block_values, cpp.MatrixCSR.block_len.
  by rewrite seq_bind_take_drop.
Qed.

Lemma wf_owned_bounds A :
  cpp.MatrixCSR.wf A →
  ∃ lo hi, cpp.MatrixCSR.indptr A !! 0 = Some lo ∧
           cpp.MatrixCSR.indptr A !! cpp.IndexMap.size_local (cpp.MatrixCSR.index_map0 A)
             = Some hi ∧
           lo ≤ hi.
Proof.
  intros Hwf. pose proof (cpp.MatrixCSR.wf_indptr_length A Hwf) as Hlen.
  destruct (lookup_lt_is_Some_2 (cpp.MatrixCSR.indptr A) 0) as [lo Hlo]; [lia|].
  destruct (lookup_lt_is_Some_2 (cpp.MatrixCSR.indptr A)
              (cpp.IndexMap.size_local (cpp.MatrixCSR.index_map0 A))) as [hi Hhi]; [lia|].
  exists lo, hi. split; [done|]. split; [done|].
  by apply (indptr_mono A 0 (cpp.IndexMap.size_local (cpp.MatrixCSR.index_map0 A)));
    [|lia|..].
Qed.

Lemma take_drop_insert_ge {B} (l : list B) (m n q : nat) (x : B) :
  m + n ≤ q → take n (drop m (<[q := x]> l)) = take n (drop m l).
Proof.
  intros Hq. apply list_eq. intros j.
  destruct (decide (j < n)).
  - rewrite !lookup_take_lt, !lookup_drop, list_lookup_insert_ne by lia. done.
  - by rewrite !lookup_take_ge by lia.
Qed.


End squared_norm_facts.

(** *** On the example matrices *)

Lemma example_rank0_wf : cpp.MatrixCSR.wf (MatrixCSR._cpp_object example_rank0).
Proof.
  unfold example_rank0, MatrixCSR.__init__. simpl.
  split; simpl; try lia.
  - intros [|[|[|[|i]]]] lo hi; simpl; intros ? ?; simplify_eq; lia.
  - done.
  - repeat constructor.
Qed.

Lemma example_rank1_wf : cpp.MatrixCSR.wf (MatrixCSR._cpp_object example_rank1).
Proof.
  unfold example_rank1, MatrixCSR.__init__. simpl.
  split; simpl; try lia.
  - intros [|[|[|i]]] lo hi; simpl; intros ? ?; simplify_eq; lia.
  - done.
  - repeat constructor.
Qed.

(** The ghost row of rank 0 holds 100, which does not enter. *)
Example squared_norm_example :
  MatrixCSR.squared_norm example_one_rank = [140]%Z ∧
  MatrixCSR.squared_norm example_two_ranks = [140; 140]%Z.
Proof. split; reflexivity. Qed.



(** ** The product [y += A x] *)

Section message_facts.
Context {T : Type}.

(** The values, among messages (owner, position, value), that are
    addressed to position [q] of rank [p], in order. *)
Lemma inbox_values (msgs : list (nat * nat * T)) (p q : nat) :
  snd <$> filter (λ u : nat * T, u.1 = q)
            ((λ m : nat * nat * T, (m.1.2, m.2)) <$> filter (λ m, m.1.1 = p) msgs) =
    m ← msgs; if decide (m.1.1 = p ∧ m.1.2 = q) then [m.2] else [].
Proof.
  induction msgs as [|m msgs IH]; [done|].
  rewrite bind_cons, <- IH, list.filter_cons.
  destruct (decide (m.1.1 = p)) as [Hp|Hp].
  - rewrite fmap_cons, list.filter_cons. simpl.
    destruct (decide (m.1.2 = q)) as [Hq|Hq].
    + by rewrite decide_True.
    + rewrite decide_False by (by intros [_ ?]). done.
  - rewrite decide_False by (by intros [? _]). done.
Qed.

Lemma bind_bind {A B C} (f : A → list B) (g : B → list C) (l : list A) :
  (l ≫= f) ≫= g = l ≫= (λ x, f x ≫= g).
Proof.
  induction l as [|x l IH]; [done|].
  by rewrite !bind_cons, bind_app, IH.
Qed.

Lemma bind_fmap_l {A B C} (f : A → B) (g : B → list C) (l : list A) :
  (f <$> l) ≫= g = l ≫= (λ x, g (f x)).
Proof.
  induction l as [|x l IH]; [done|].
  by rewrite fmap_cons, !bind_cons, IH.
Qed.

End message_facts.

Section mult_facts.
Context {T : Type} `{Scalar T}.
Implicit Types (A : cpp.MatrixCSR.t T).

Lemma block_index_bound (n b0 b1 k a b : nat) :
  k < n → a < b0 → b < b1 → k * (b0 * b1) + a * b1 + b < n * (b0 * b1).
Proof.
  intros Hk Ha Hb.
  assert ((a + 1) * b1 ≤ b0 * b1) by (apply Nat.mul_le_mono_r; lia).
  assert ((k + 1) * (b0 * b1) ≤ n * (b0 * b1)) by (apply Nat.mul_le_mono_r; lia).
  lia.
Qed.

Lemma entry_index_bound (n b i a : nat) : i < n → a < b → i * b + a < b * n.
Proof.
  intros Hi Ha.
  assert ((i + 1) * b ≤ n * b) by (apply Nat.mul_le_mono_r; lia). lia.
Qed.

(** Under the invariant, every scalar of a stored block and the entry of
    [x] for its column exist: the products of a block row are all
    there. *)
Lemma block_products_wf A (xs : list T) k a :
  cpp.MatrixCSR.wf A →
  length xs = (cpp.MatrixCSR.bs A).2 *
    (cpp.IndexMap.size_local (cpp.MatrixCSR.index_map1 A) +
     cpp.IndexMap.num_ghosts (cpp.MatrixCSR.index_map1 A)) →
  k < length (cpp.MatrixCSR.indices A) → a < (cpp.MatrixCSR.bs A).1 →
  cpp.MatrixCSR.block_products A xs k a =
    b ← seq 0 (cpp.MatrixCSR.bs A).2;
    [smul (default szero
             (cpp.MatrixCSR.data A
                !! (k * ((cpp.MatrixCSR.bs A).1 * (cpp.MatrixCSR.bs A).2)
                    + a * (cpp.MatrixCSR.bs A).2 + b)))
          (default szero
             (xs !! (default 0 (cpp.MatrixCSR.indices A !! k) * (cpp.MatrixCSR.bs A).2 + b)))].
Proof.
  intros Hwf Hxs Hk Ha. unfold cpp.MatrixCSR.block_products, cpp.MatrixCSR.block_len.
  set (b0 := (cpp.MatrixCSR.bs A).1) in *. set (b1 := (cpp.MatrixCSR.bs A).2) in *.
  pose proof (cpp.MatrixCSR.wf_data_length A Hwf) as Hdata.
  unfold cpp.MatrixCSR.block_len in Hdata. fold b0 b1 in Hdata.
  destruct (lookup_lt_is_Some_2 _ _ Hk) as [j Hj].
  pose proof (Forall_lookup_1 _ _ _ _ (cpp.MatrixCSR.wf_columns A Hwf) Hj) as Hcol.
  simpl in Hcol.
  apply bind_ext_in. intros b [_ Hb]%elem_of_seq.
  destruct (lookup_lt_is_Some_2 (cpp.MatrixCSR.data A) (k * (b0 * b1) + a * b1 + b))
    as [v Hv]; [rewrite Hdata; apply block_index_bound; lia|].
  destruct (lookup_lt_is_Some_2 xs (j * b1 + b)) as [xv Hxv];
    [rewrite Hxs; apply entry_index_bound; lia|].
  rewrite Hv, Hj. simpl. rewrite Hxv. done.
Qed.

Lemma row_entries_wf A i :
  cpp.MatrixCSR.wf A → i < length (cpp.MatrixCSR.indptr A) - 1 →
  ∃ lo hi, cpp.MatrixCSR.indptr A !! i = Some lo ∧
           cpp.MatrixCSR.indptr A !! S i = Some hi ∧
           cpp.MatrixCSR.row_entries A i = seq lo (hi - lo) ∧
           lo ≤ hi ≤ length (cpp.MatrixCSR.indices A).
Proof.
  intros Hwf Hi.
  destruct (lookup_lt_is_Some_2 (cpp.MatrixCSR.indptr A) i) as [lo Hlo]; [lia|].
  destruct (lookup_lt_is_Some_2 (cpp.MatrixCSR.indptr A) (S i)) as [hi Hhi]; [lia|].
  exists lo, hi. split; [done|]. split; [done|].
  split; [by apply row_entries_seq|]. split.
  - by eapply (cpp.MatrixCSR.wf_indptr_mono A Hwf).
  - eapply (indptr_mono A (S i) (length (cpp.MatrixCSR.indptr A) - 1));
      [done|lia|exact Hhi|by apply cpp.MatrixCSR.wf_indptr_last].
Qed.

Lemma div_mod_entry (b i a : nat) :
  a < b → (i * b + a) / b = i ∧ (i * b + a) mod b = a.
Proof.
  intros Ha. split.
  - symmetry. apply (Nat.div_unique _ _ i a); lia.
  - symmetry. apply (Nat.mod_unique _ _ i a); lia.
Qed.

Lemma bind_ext_lookup {B C D} (f : B → list D) (g : C → list D) (l1 : list B) (l2 : list C) :
  length l1 = length l2 →
  (∀ i b c, l1 !! i = Some b → l2 !! i = Some c → f b = g c) →
  l1 ≫= f = l2 ≫= g.
Proof.
  revert l2. induction l1 as [|b l1 IH]; intros [|c l2] Hlen Hfg; simplify_eq/=; [done|].
  f_equal.
  - by apply (Hfg 0).
  - apply IH; [done|]. intros i b' c' Hb Hc. by apply (Hfg (S i)).
Qed.

(** Entry [a] of block row [i] of the product, written out. *)
Lemma row_dot_wf A (xs : list T) i a :
  cpp.MatrixCSR.wf A →
  length xs = (cpp.MatrixCSR.bs A).2 *
    (cpp.IndexMap.size_local (cpp.MatrixCSR.index_map1 A) +
     cpp.IndexMap.num_ghosts (cpp.MatrixCSR.index_map1 A)) →
  i < length (cpp.MatrixCSR.indptr A) - 1 → a < (cpp.MatrixCSR.bs A).1 →
  cpp.MatrixCSR.row_dot A xs i a =
    foldl sadd szero
      (k ← seq (default 0 (cpp.MatrixCSR.indptr A !! i))
             (default 0 (cpp.MatrixCSR.indptr A !! S i) - default 0 (cpp.MatrixCSR.indptr A !! i));
       b ← seq 0 (cpp.MatrixCSR.bs A).2;
       [smul (default szero
                (cpp.MatrixCSR.data A
                   !! (k * ((cpp.MatrixCSR.bs A).1 * (cpp.MatrixCSR.bs A).2)
                       + a * (cpp.MatrixCSR.bs A).2 + b)))
             (default szero
                (xs !! (default 0 (cpp.MatrixCSR.indices A !! k) * (cpp.MatrixCSR.bs A).2 + b)))]).
Proof.
  intros Hwf Hxs Hi Ha. unfold cpp.MatrixCSR.row_dot, ssum. f_equal.
  destruct (row_entries_wf A i Hwf Hi) as (lo & hi & Hlo & Hhi & -> & Hle1 & Hle2).
  rewrite Hlo, Hhi. simpl.
  apply bind_ext_in. intros k [_ Hk]%elem_of_seq.
  rewrite block_products_wf; [done..|lia|done].
Qed.

(** One call of [mult]: what every entry of [y] holds afterwards. *)
Lemma mult_lookup (self : MatrixCSR.t T) (x y : Vector.t T) :
  let A := MatrixCSR._cpp_object self in
  cpp.MatrixCSR.wf A →
  cpp.MatrixCSR.conforms (Vector._cpp_object x) (cpp.MatrixCSR.index_map1 A)
    (cpp.MatrixCSR.bs A).2 →
  cpp.MatrixCSR.conforms (Vector._cpp_object y) (cpp.MatrixCSR.index_map0 A)
    (cpp.MatrixCSR.bs A).1 →
  ∃ y', MatrixCSR.mult self x y = Ok y' ∧
        Vector.index_map y' = Vector.index_map y ∧
        Vector.block_size y' = Vector.block_size y ∧
        Vector._petsc_x y' = Vector._petsc_x y ∧
        ∀ j, Vector.array y' !! j =
               y_j ← Vector.array y !! j;
               Some (sadd y_j (cpp.MatrixCSR.row_dot A (Vector.array x)
                                 (j / (cpp.MatrixCSR.bs A).1) (j mod (cpp.MatrixCSR.bs A).1))).
Proof.
  intros A Hwf Hx Hy.
  pose proof (cpp.MatrixCSR.wf_indptr_length A Hwf) as Hlen.
  pose proof (proj2 Hy) as Hylen.
  change (length (Vector.array y) = (cpp.MatrixCSR.bs A).1 *
            (cpp.IndexMap.size_local (cpp.MatrixCSR.index_map0 A) +
             cpp.IndexMap.num_ghosts (cpp.MatrixCSR.index_map0 A))) in Hylen.
  eexists. split.
  { unfold MatrixCSR.mult, cpp.MatrixCSR.mult. fold A. by rewrite decide_True. }
  split; [done|]. split; [done|]. split; [done|].
  intros j. unfold Vector.array at 1. simpl. rewrite list_lookup_imap.
  fold (Vector.array y).
  destruct (Vector.array y !! j) as [y_j|] eqn:Hj; simpl; [|done].
  apply lookup_lt_Some in Hj. rewrite decide_True; [done|].
  rewrite Hlen, Nat.add_sub, Nat.mul_comm. by rewrite <- Hylen.
Qed.

Lemma mult_on_ranks_returns (As : list (MatrixCSR.t T)) (xs ys : list (Vector.t T)) :
  length xs = length As → length ys = length As →
  (∀ p self x y, zip As (zip xs ys) !! p = Some (self, (x, y)) →
     ∃ y', MatrixCSR.mult self x y = Ok y') →
  ∃ ys', mult_on_ranks As xs ys = Ok ys' ∧ length ys' = length As ∧
         ∀ p self x y, zip As (zip xs ys) !! p = Some (self, (x, y)) →
           ∃ y', ys' !! p = Some y' ∧ MatrixCSR.mult self x y = Ok y'.
Proof.
  revert xs ys. induction As as [|A0 As IH]; intros [|x0 xs] [|y0 ys] Hxs Hys Hret;
    simplify_eq/=.
  - exists []. split; [done|]. split; [done|]. intros p ? ? ? Hp. done.
  - destruct (Hret 0 A0 x0 y0 eq_refl) as [y0' H0'].
    destruct (IH xs ys Hxs Hys) as (yt & Hrun & Hlen & Hlook).
    { intros p self x y Hp. by apply (Hret (S p)). }
    exists (y0' :: yt). rewrite H0'. simpl. rewrite Hrun. simpl.
    split; [done|]. split; [by rewrite Hlen|].
    intros [|p] self x y Hp; simplify_eq/=; [by eexists|]. by apply Hlook.
Qed.

(** C9. Every rank calls [A.mult(x, y)] on its parts: a matrix that
    satisfies the invariant of the native class, and vectors that
    conform to its column and row maps.  Every call returns, with the
    layout of [y] as before and every entry [j] of [y], owned or ghost,
    holding its previous value plus the entry of the product of the
    local matrix with the local array of [x]: for entry [a = j mod bs0]
    of block row [i = j / bs0], the sum over the blocks [k] of the row,
    in storage order, and the columns [b] of the block, of
    [data[k * bs0 * bs1 + a * bs1 + b] * x[indices[k] * bs1 + b]].
    A rank's result is that of its own call alone, so that the product
    of a ghost row stays in the ghost entries of [y] on the rank that
    computed it.  It reaches the owner with the caller's
    [scatter_reverse(add)] on the result: after it, an entry holds what
    [mult] left there and, added one after the other, what [mult] left
    in the ghost entries that the ranks have of it. *)
Theorem mult_accumulates_locally (As : list (MatrixCSR.t T)) (xs ys : list (Vector.t T)) :
  let product (self : MatrixCSR.t T) (x : Vector.t T) (i a : nat) : T :=
    let A := MatrixCSR._cpp_object self in
    let bs0 := (cpp.MatrixCSR.bs A).1 in
    let bs1 := (cpp.MatrixCSR.bs A).2 in
    let row_start i := default 0 (cpp.MatrixCSR.indptr A !! i) in
    foldl sadd szero
      (k ← seq (row_start i) (row_start (S i) - row_start i);
       b ← seq 0 bs1;
       [smul (default szero (MatrixCSR.data self !! (k * (bs0 * bs1) + a * bs1 + b)))
             (default szero
                (Vector.array x !! (default 0 (cpp.MatrixCSR.indices A !! k) * bs1 + b)))]) in
  let after (r : MatrixCSR.t T * (Vector.t T * Vector.t T)) (j : nat) : option T :=
    let bs0 := (cpp.MatrixCSR.bs (MatrixCSR._cpp_object r.1)).1 in
    y_j ← Vector.array r.2.2 !! j;
    Some (sadd y_j (product r.1 r.2.1 (j / bs0) (j mod bs0))) in
  let ranks := zip As (zip xs ys) in
  let received (p j : nat) : list T :=
    r ← ranks;
    '(k, (g, owner)) ← cpp.IndexMap.ghost_table (Vector.index_map r.2.2);
    c ← seq 0 (Vector.block_size r.2.2);
    if decide (owner = p ∧
               Vector.block_size r.2.2 *
                 (g - cpp.IndexMap.offset (Vector.index_map <$> ys) p) + c = j)
    then option_list
           (after r (Vector.block_size r.2.2 *
                       (cpp.IndexMap.size_local (Vector.index_map r.2.2) + k) + c))
    else [] in
  length xs = length As → length ys = length As →
  (∀ p self x y, ranks !! p = Some (self, (x, y)) →
     cpp.MatrixCSR.wf (MatrixCSR._cpp_object self) ∧
     cpp.MatrixCSR.conforms (Vector._cpp_object x)
       (cpp.MatrixCSR.index_map1 (MatrixCSR._cpp_object self))
       (cpp.MatrixCSR.bs (MatrixCSR._cpp_object self)).2 ∧
     cpp.MatrixCSR.conforms (Vector._cpp_object y)
       (cpp.MatrixCSR.index_map0 (MatrixCSR._cpp_object self))
       (cpp.MatrixCSR.bs (MatrixCSR._cpp_object self)).1) →
  ∃ ys',
    mult_on_ranks As xs ys = Ok ys' ∧
    length ys' = length As ∧
    ∀ p self x y, ranks !! p = Some (self, (x, y)) →
      ∃ y' y'',
        ys' !! p = Some y' ∧
        MatrixCSR.mult self x y = Ok y' ∧
        Vector.index_map y' = Vector.index_map y ∧
        Vector.block_size y' = Vector.block_size y ∧
        Vector._petsc_x y' = Vector._petsc_x y ∧
        (∀ j, Vector.array y' !! j = after (self, (x, y)) j) ∧
        Vector.scatter_reverse ys' cpp.add !! p = Some y'' ∧
        (∀ j, Vector.array y'' !! j =
                (λ v, foldl sadd v (received p j)) <$> after (self, (x, y)) j).
Proof.
  intros product after ranks received Hxs Hys Hok.
  (* one call *)
  assert (Hcall : ∀ p self x y, ranks !! p = Some (self, (x, y)) →
    ∃ y', MatrixCSR.mult self x y = Ok y' ∧
          Vector.index_map y' = Vector.index_map y ∧
          Vector.block_size y' = Vector.block_size y ∧
          Vector._petsc_x y' = Vector._petsc_x y ∧
          ∀ j, Vector.array y' !! j = after (self, (x, y)) j).
  { intros p self x y Hp. destruct (Hok p self x y Hp) as (Hwf & Hx & Hy).
    destruct (mult_lookup self x y Hwf Hx Hy) as (y' & Hmult & Hmap & Hbs & Hpetsc & Harr).
    exists y'. split; [done|]. split; [done|]. split; [done|]. split; [done|].
    intros j. rewrite Harr. unfold after. simpl.
    destruct (Vector.array y !! j) as [y_j|] eqn:Hj; simpl; [|done].
    apply lookup_lt_Some in Hj. do 2 f_equal.
    set (A := MatrixCSR._cpp_object self) in *.
    destruct (cpp.MatrixCSR.wf_bs A Hwf) as [Hb0 _].
    pose proof (cpp.MatrixCSR.wf_indptr_length A Hwf) as Hlen.
    pose proof (proj2 Hy) as Hylen.
    change (length (Vector.array y) = (cpp.MatrixCSR.bs A).1 *
              (cpp.IndexMap.size_local (cpp.MatrixCSR.index_map0 A) +
               cpp.IndexMap.num_ghosts (cpp.MatrixCSR.index_map0 A))) in Hylen.
    apply row_dot_wf; [done|exact (proj2 Hx)| |].
    - rewrite Hlen, Nat.add_sub. apply Nat.Div0.div_lt_upper_bound. by rewrite <- Hylen.
    - apply Nat.mod_upper_bound. lia. }
  destruct (mult_on_ranks_returns As xs ys Hxs Hys) as (ys' & Hrun & Hlen & Hlook).
  { intros p self x y Hp. destruct (Hcall p self x y Hp) as (y' & Hmult & _). by exists y'. }
  exists ys'. split; [done|]. split; [done|].
  (* the results, rank by rank *)
  assert (Hres : ∀ i (w : Vector.t T) r, ys' !! i = Some w → ranks !! i = Some r →
    Vector.index_map w = Vector.index_map r.2.2 ∧
    Vector.block_size w = Vector.block_size r.2.2 ∧
    ∀ j, Vector.array w !! j = after r j).
  { intros i w [self [x y]] Hw Hr.
    destruct (Hlook i self x y Hr) as (y' & Hy' & Hmult).
    destruct (Hcall i self x y Hr) as (y1 & Hmult1 & Hmap & Hbs & _ & Harr).
    assert (w = y1) as -> by congruence. done. }
  assert (Hranks : length ys' = length ranks).
  { unfold ranks. rewrite length_zip, length_zip. lia. }
  assert (Hmaps : Vector.index_map <$> ys' = Vector.index_map <$> ys).
  { apply list_eq. intros i. rewrite !list_lookup_fmap.
    destruct (ys' !! i) as [w|] eqn:Hw.
    - destruct (lookup_lt_is_Some_2 ranks i) as [[self [x y]] Hr].
      { rewrite <- Hranks. by eapply lookup_lt_Some. }
      destruct (Hres i w _ Hw Hr) as (Hmap & _). simpl in Hmap.
      unfold ranks in Hr. apply lookup_zip_with_Some in Hr as (? & ? & ? & _ & Hr).
      apply lookup_zip_with_Some in Hr as (? & ? & ? & _ & Hr). simplify_eq/=.
      by rewrite Hr, Hmap.
    - apply lookup_ge_None_1 in Hw. rewrite lookup_ge_None_2; [done|]. lia. }
  intros p self x y Hp.
  destruct (Hlook p self x y Hp) as (y' & Hy' & Hmult).
  destruct (Hcall p self x y Hp) as (y1 & Hmult1 & Hmap & Hbs & Hpetsc & Harr).
  assert (y1 = y') as -> by congruence.
  eexists y', _. split; [done|]. split; [done|].
  split; [done|]. split; [done|]. split; [done|]. split; [done|].
  unfold Vector.scatter_reverse, cpp.Vector.scatter_reverse.
  split.
  { apply lookup_zip_with_Some. eexists _, _. split; [reflexivity|].
    split; [exact Hy'|]. by rewrite list_lookup_imap, list_lookup_fmap, Hy'. }
  intros j. unfold Vector.array at 1. simpl.
  rewrite apply_updates_lookup. fold (Vector.array y'). rewrite Harr.
  destruct (after (self, (x, y)) j) as [v|]; simpl; [|done]. do 2 f_equal.
  assert (Hcpp : cpp.Vector.index_map <$> (Vector._cpp_object <$> ys') =
                 Vector.index_map <$> ys)
    by (by rewrite <- Hmaps, <- list_fmap_compose).
  unfold cpp.Vector.inbox. rewrite Hcpp, inbox_values, bind_bind, bind_fmap_l.
  unfold received. apply bind_ext_lookup; [done|].
  intros i w r Hw Hr. destruct (Hres i w r Hw Hr) as (Hwmap & Hwbs & Hwarr).
  unfold cpp.Vector.outgoing. rewrite bind_bind.
  change (cpp.Vector.index_map (Vector._cpp_object w)) with (Vector.index_map w).
  change (cpp.Vector.bs (Vector._cpp_object w)) with (Vector.block_size w).
  change (cpp.Vector.array (Vector._cpp_object w)) with (Vector.array w).
  rewrite Hwmap, Hwbs.
  apply bind_ext_in. intros [k [g o]] _. rewrite bind_bind.
  apply bind_ext_in. intros c _. rewrite Hwarr.
  unfold cpp.IndexMap.local_of.
  destruct (after r _) as [xv|]; simpl.
  + rewrite app_nil_r.
    destruct (decide (o = p)) as [->|Hne]; [done|].
    destruct (decide (o = p ∧ _)) as [[? _]|_]; [done|].
    destruct (decide (o = p ∧ _)) as [[? _]|_]; done.
  + by case_decide.
Qed.

End mult_facts.

(** *** On the example *)

(** On two ranks: rank 0 computes 100 for its ghost row, which is row 0
    of rank 1; rank 1 has 11 for that row until the scatter. *)
Example mult_example :
  (ys ← mult_on_ranks example_two_ranks example_x example_y;
   Ok (Vector.array <$> ys, Vector.array <$> Vector.scatter_reverse ys cpp.add))
  = Ok ([[3; 7; 100]; [11; 7]], [[3; 7; 100]; [111; 7]])%Z.
Proof. reflexivity. Qed.

Lemma mult_accumulates_locally_witness :
  length example_x = length example_two_ranks ∧
  length example_y = length example_two_ranks ∧
  (∀ p self x y,
     zip example_two_ranks (zip example_x example_y) !! p = Some (self, (x, y)) →
     cpp.MatrixCSR.wf (MatrixCSR._cpp_object self) ∧
     cpp.MatrixCSR.conforms (Vector._cpp_object x)
       (cpp.MatrixCSR.index_map1 (MatrixCSR._cpp_object self))
       (cpp.MatrixCSR.bs (MatrixCSR._cpp_object self)).2 ∧
     cpp.MatrixCSR.conforms (Vector._cpp_object y)
       (cpp.MatrixCSR.index_map0 (MatrixCSR._cpp_object self))
       (cpp.MatrixCSR.bs (MatrixCSR._cpp_object self)).1) ∧
  ∃ ys' y0' y1' y1'',
    mult_on_ranks example_two_ranks example_x example_y = Ok ys' ∧
    ys' !! 0 = Some y0' ∧
    MatrixCSR.mult example_rank0 example_x0 example_y0 = Ok y0' ∧
    Vector.array y0' !! 2 = Some 100%Z ∧
    ys' !! 1 = Some y1' ∧
    MatrixCSR.mult example_rank1 example_x1 example_y1 = Ok y1' ∧
    Vector.array y1' !! 0 = Some 11%Z ∧
    Vector.array y1' !! 1 = Some 7%Z ∧
    Vector.scatter_reverse ys' cpp.add !! 1 = Some y1'' ∧
    Vector.array y1'' !! 0 = Some 111%Z ∧
    Vector.array y1'' !! 1 = Some 7%Z.
Proof.
  assert (Hok : ∀ p self x y,
     zip example_two_ranks (zip example_x example_y) !! p = Some (self, (x, y)) →
     cpp.MatrixCSR.wf (MatrixCSR._cpp_object self) ∧
     cpp.MatrixCSR.conforms (Vector._cpp_object x)
       (cpp.MatrixCSR.index_map1 (MatrixCSR._cpp_object self))
       (cpp.MatrixCSR.bs (MatrixCSR._cpp_object self)).2 ∧
     cpp.MatrixCSR.conforms (Vector._cpp_object y)
       (cpp.MatrixCSR.index_map0 (MatrixCSR._cpp_object self))
       (cpp.MatrixCSR.bs (MatrixCSR._cpp_object self)).1).
  { intros [|[|p]] self x y Hp; simplify_eq/=.
    - split; [exact example_rank0_wf|]. split; split; reflexivity.
    - split; [exact example_rank1_wf|]. split; split; reflexivity. }
  split; [reflexivity|]. split; [reflexivity|]. split; [exact Hok|].
  destruct (mult_accumulates_locally example_two_ranks example_x example_y
              eq_refl eq_refl Hok) as (ys' & Hrun & _ & Hranks).
  destruct (Hranks 0 example_rank0 example_x0 example_y0 eq_refl)
    as (y0' & _ & Hy0 & Hmult0 & _ & _ & _ & Harr0 & _).
  destruct (Hranks 1 example_rank1 example_x1 example_y1 eq_refl)
    as (y1' & y1'' & Hy1 & Hmult1 & _ & _ & _ & Harr1 & Hscatter & Hsum).
  exists ys', y0', y1', y1''.
  split; [exact Hrun|]. split; [exact Hy0|]. split; [exact Hmult0|].
  split; [exact (Harr0 2)|]. split; [exact Hy1|]. split; [exact Hmult1|].
  split; [exact (Harr1 0)|]. split; [exact (Harr1 1)|]. split; [exact Hscatter|].
  split; [exact (Hsum 0)|exact (Hsum 1)].
Defined.
(** ** The invariants hold for what the module builds *)

Section offsets_facts.
Context {A : Type}.
Implicit Types (g : list (list A)).

Lemma length_offsets acc g : length (cpp.MatrixCSR.offsets acc g) = length g + 1.
Proof.
  revert acc. induction g as [|r g IH]; intros acc; simpl; [done|]. by rewrite IH.
Qed.

Lemma offsets_first acc g : cpp.MatrixCSR.offsets acc g !! 0 = Some acc.
Proof. by destruct g. Qed.

Lemma offsets_mono acc g i lo hi :
  cpp.MatrixCSR.offsets acc g !! i = Some lo →
  cpp.MatrixCSR.offsets acc g !! S i = Some hi → lo ≤ hi.
Proof.
  revert acc i. induction g as [|r g IH]; intros acc i; [by destruct i|].
  destruct i as [|i]; simpl.
  - rewrite offsets_first. intros [= <-] [= <-]. lia.
  - apply IH.
Qed.

Lemma offsets_last acc g :
  cpp.MatrixCSR.offsets acc g !! length g = Some (acc + length (concat g)).
Proof.
  revert acc. induction g as [|r g IH]; intros acc; simpl.
  - f_equal. lia.
  - rewrite IH, length_app. f_equal. lia.
Qed.

Lemma length_bind_const {B} (f : A → list B) (l : list A) (n : nat) :
  (∀ x, x ∈ l → length (f x) = n) → length (l ≫= f) = length l * n.
Proof.
  intros Hf. induction l as [|x l IH]; [done|].
  rewrite bind_cons, length_app, Hf, IH; [simpl; lia| |by left].
  intros y Hy. apply Hf. by right.
Qed.

End offsets_facts.

Section create_facts.
Context {T : Type} `{Scalar T}.

Lemma expanded_row_length (b1 : nat) (row : list nat) :
  length (c ← row; (λ q, c * b1 + q) <$> seq 0 b1) = length row * b1.
Proof.
  apply length_bind_const. intros c _. by rewrite length_fmap, length_seq.
Qed.

Lemma length_concat_replicate {B} (n : nat) (l : list B) :
  length (concat (replicate n l)) = n * length l.
Proof. induction n as [|n IH]; simpl; [done|]. by rewrite length_app, IH. Qed.

Lemma length_concat_expand_graph (b : nat * nat) (g : list (list nat)) :
  length (concat (cpp.MatrixCSR.expand_graph b g)) = length (concat g) * (b.1 * b.2).
Proof.
  unfold cpp.MatrixCSR.expand_graph.
  induction g as [|row g IH]; [done|].
  rewrite bind_cons, concat_cons, concat_app, !length_app, IH.
  rewrite length_concat_replicate, expanded_row_length. lia.
Qed.

Lemma create_wf (sp : cpp.SparsityPattern.t) (mode : cpp.BlockMode) :
  cpp.SparsityPattern.wf sp → cpp.MatrixCSR.wf (cpp.MatrixCSR.create (T:=T) sp mode).
Proof.
  intros [[Hb0 Hb1] Hrows Hcols Hsize]. destruct mode; split; simpl.
  - done.
  - rewrite length_offsets. lia.
  - apply offsets_mono.
  - rewrite length_offsets, Nat.add_sub. apply (offsets_last 0).
  - by rewrite length_replicate.
  - apply Forall_concat. exact Hcols.
  - by rewrite length_replicate.
  - lia.
  - rewrite length_offsets. unfold cpp.MatrixCSR.expand_graph, cpp.IndexMap.num_ghosts. simpl.
    rewrite (length_bind_const _ _ (cpp.SparsityPattern.block_size sp).1)
      by (intros; apply length_replicate).
    rewrite (length_bind_const _ _ (cpp.SparsityPattern.block_size sp).1)
      by (intros; by rewrite length_fmap, length_seq).
    rewrite Hrows. unfold cpp.IndexMap.num_ghosts. lia.
  - apply offsets_mono.
  - rewrite length_offsets, Nat.add_sub. apply (offsets_last 0).
  - rewrite length_replicate. unfold cpp.MatrixCSR.block_len. simpl. lia.
  - apply Forall_concat. unfold cpp.MatrixCSR.expand_graph.
    apply list.Forall_forall. intros erow (row & Herow & Hrow)%list_elem_of_bind.
    apply elem_of_replicate in Herow as [-> _].
    apply list.Forall_forall. intros j (c & Hj & Hc)%list_elem_of_bind.
    apply list_elem_of_fmap in Hj as (q & -> & [_ Hq]%elem_of_seq).
    rewrite list.Forall_forall in Hcols. specialize (Hcols row Hrow).
    rewrite list.Forall_forall in Hcols. specialize (Hcols c Hc). simpl in Hcols.
    unfold cpp.IndexMap.num_ghosts. simpl.
    rewrite (length_bind_const _ _ (cpp.SparsityPattern.block_size sp).2)
      by (intros; by rewrite length_fmap, length_seq).
    unfold cpp.IndexMap.num_ghosts in Hcols. nia.
  - rewrite length_replicate, length_concat_expand_graph. exact Hsize.
Qed.



(** What the factory returns satisfies the invariant, and [add], [set]
    and [set_value] keep it. *)
Lemma matrix_csr_wf sp bm dtype (w w' : world) (self : MatrixCSR.t T) :
  cpp.SparsityPattern.wf sp →
  matrix_csr sp bm dtype w = (Ok self, w') →
  cpp.MatrixCSR.wf (MatrixCSR._cpp_object self).
Proof.
  intros Hsp. rewrite matrix_csr_cases. unfold construct_and_wrap.
  destruct (np.as_class dtype); intros [= <- _]; by apply create_wf.
Qed.

Lemma add_set_wf (self self' : MatrixCSR.t T) x rows cols b :
  cpp.MatrixCSR.wf (MatrixCSR._cpp_object self) →
  MatrixCSR.add self x rows cols b = Ok self' ∨ MatrixCSR.set self x rows cols b = Ok self' →
  cpp.MatrixCSR.wf (MatrixCSR._cpp_object self').
Proof.
  intros Hwf. unfold MatrixCSR.add, MatrixCSR.set, cpp.MatrixCSR.add, cpp.MatrixCSR.set.
  intros [Hcall|Hcall].
  - destruct (cpp.MatrixCSR.insert_csr sadd _ x rows cols b) as [A'|] eqn:Hins;
      [|done]. injection Hcall as <-.
    apply (insert_csr_pattern sadd _ x rows cols b) in Hins as (d & -> & Hd).
    by apply with_data_wf.
  - destruct (cpp.MatrixCSR.insert_csr (λ _ v : T, v) _ x rows cols b) as [A'|] eqn:Hins;
      [|done]. injection Hcall as <-.
    apply (insert_csr_pattern (λ _ v : T, v) _ x rows cols b) in Hins as (d & -> & Hd).
    by apply with_data_wf.
Qed.

Lemma set_value_wf (self : MatrixCSR.t T) (x : T) :
  cpp.MatrixCSR.wf (MatrixCSR._cpp_object self) →
  cpp.MatrixCSR.wf (MatrixCSR._cpp_object (MatrixCSR.set_value self x)).
Proof. intros Hwf. apply with_data_wf; [done|]. by rewrite length_fmap. Qed.

(** The same for vectors: the factory, the two scatters and [mult]. *)
Lemma vector_wf map bs dtype (w w' : world) (self : Vector.t T) :
  vector map bs dtype w = (Ok self, w') → cpp.Vector.wf (Vector._cpp_object self).
Proof.
  rewrite vector_cases. unfold construct_and_wrap_vector.
  destruct (np.as_class dtype); intros [= <- _]; apply length_replicate.
Qed.

Lemma scatter_wf (comm : list (Vector.t T)) mode :
  Forall (λ self, cpp.Vector.wf (Vector._cpp_object self)) comm →
  Forall (λ self, cpp.Vector.wf (Vector._cpp_object self)) (Vector.scatter_forward comm) ∧
  Forall (λ self, cpp.Vector.wf (Vector._cpp_object self)) (Vector.scatter_reverse comm mode).
Proof.
  intros Hwf. split; apply Forall_lookup; intros p self' Hself';
    apply lookup_zip_with_Some in Hself' as (self & x & -> & Hself & Hx);
    pose proof (Forall_lookup_1 _ _ _ _ Hwf Hself) as Hw; simpl.
  - unfold cpp.Vector.scatter_forward in Hx.
    rewrite !list_lookup_fmap, Hself in Hx. injection Hx as <-.
    unfold cpp.Vector.wf in *. simpl. by rewrite length_imap.
  - unfold cpp.Vector.scatter_reverse in Hx.
    rewrite list_lookup_imap, list_lookup_fmap, Hself in Hx. injection Hx as <-.
    unfold cpp.Vector.wf in *. simpl. by rewrite length_apply_updates.
Qed.

Lemma mult_wf (self : MatrixCSR.t T) (x y y' : Vector.t T) :
  cpp.Vector.wf (Vector._cpp_object y) →
  MatrixCSR.mult self x y = Ok y' → cpp.Vector.wf (Vector._cpp_object y').
Proof.
  unfold MatrixCSR.mult, cpp.MatrixCSR.mult. intros Hwf. case_decide; [|done].
  simpl. intros [= <-]. unfold cpp.Vector.wf in *. simpl.
  by rewrite length_imap.
Qed.

End create_facts.

(** * Further properties of the module *)

(** ** NumPy operations used by [to_scipy] *)

Section array_facts.
Context {A : Type}.

Lemma slice_to_prefix (a : list A) (k : Z) : ndarray.slice_to a k `prefix_of` a.
Proof. unfold ndarray.slice_to. destruct (k <? 0)%Z; apply prefix_take. Qed.

Lemma reshape3_Ok (a : list A) (d0 d1 : Z) :
  (∃ r, ndarray.reshape3 a d0 d1 = Ok r) ↔
  (0 < d0 ∧ 0 < d1 ∧ Z.of_nat (length a) mod (d0 * d1) = 0)%Z.
Proof.
  unfold ndarray.reshape3.
  destruct (Z.ltb_spec 0 d0), (Z.ltb_spec 0 d1); simpl;
    try (split; [intros [r [=]]|lia]).
  destruct (Z.eqb_spec (Z.of_nat (length a) mod (d0 * d1)) 0); simpl.
  - split; [lia|eauto].
  - split; [intros [r [=]]|lia].
Qed.

Lemma reshape3_values (a : list A) (d0 d1 : Z) r :
  ndarray.reshape3 a d0 d1 = Ok r →
  concat (concat r) = a ∧
  Forall (λ blk, length blk = Z.to_nat d0 ∧
                 Forall (λ row : list A, length row = Z.to_nat d1) blk) r.
Proof.
  intros Hr. assert (Hok : ∃ r, ndarray.reshape3 a d0 d1 = Ok r) by eauto.
  apply reshape3_Ok in Hok as (H0 & H1 & Hmod).
  unfold ndarray.reshape3 in Hr.
  destruct (Z.ltb_spec 0 d0); [|lia]. destruct (Z.ltb_spec 0 d1); [|lia].
  rewrite Hmod in Hr. simpl in Hr. injection Hr as <-.
  set (b := Z.to_nat d0 * Z.to_nat d1).
  assert (Hb : 0 < b) by (subst b; nia).
  assert (Hlen : length a = length a / b * b).
  { assert (Hz : (Z.of_nat (length a) mod Z.of_nat b = 0)%Z).
    { subst b. rewrite Nat2Z.inj_mul, !Z2Nat.id by lia. exact Hmod. }
    rewrite <- Nat2Z.inj_mod in Hz.
    pose proof (Nat.div_mod_eq (length a) b). lia. }
  pose proof (chunks_lengths b (length a / b) a Hlen) as Hblocks.
  split.
  - rewrite concat_concat_chunks, concat_chunks; [done|done|].
    eapply Forall_impl; [|exact Hblocks]. simpl. intros; lia.
  - apply Forall_fmap. eapply Forall_impl; [|exact Hblocks]. simpl.
    intros blk Hblk. split; [apply length_chunks|]. apply chunks_lengths. lia.
Qed.

End array_facts.

Lemma chunks_lookup {A} (k n : nat) (l : list A) i c j v :
  ndarray.chunks k n l !! i = Some c → c !! j = Some v →
  j < k ∧ l !! (i * k + j) = Some v.
Proof.
  revert l i. induction n as [|n IH]; intros l i; simpl; [done|].
  destruct i as [|i]; simpl.
  - intros [= <-] [Hv Hj]%lookup_take_Some. done.
  - intros Hc Hv. destruct (IH _ _ Hc Hv) as [Hj Hl]. split; [done|].
    rewrite lookup_drop in Hl. rewrite <- Hl. f_equal. lia.
Qed.

Section to_scipy_cases.
Context {T : Type} `{Scalar T}.
Implicit Types (self : MatrixCSR.t T) (m : scipy.spmatrix T).

(** The last step of [to_scipy]: the SciPy matrix for the chosen rows. *)
Lemma to_scipy_ghosted self :
  let A := MatrixCSR._cpp_object self in
  let bs0 := Z.of_nat (cpp.MatrixCSR.bs A).1 in
  let bs1 := Z.of_nat (cpp.MatrixCSR.bs A).2 in
  let nrows := Z.of_nat (local_rows A true) in
  let ncols := Z.of_nat (local_cols A) in
  MatrixCSR.to_scipy self true =
    if ((bs0 =? 1) && (bs1 =? 1))%Z then
      Ok (scipy.csr_matrix (MatrixCSR.data self) (MatrixCSR.indices self)
            (MatrixCSR.indptr self) (nrows, ncols))
    else
      d ← ndarray.reshape3 (MatrixCSR.data self) bs0 bs1;
      Ok (scipy.bsr_matrix d (MatrixCSR.indices self) (MatrixCSR.indptr self)
            ((bs0 * nrows)%Z, (bs1 * ncols)%Z)).
Proof.
  intros A bs0 bs1 nrows ncols.
  unfold MatrixCSR.to_scipy, MatrixCSR.index_map, cpp.MatrixCSR.index_map,
    MatrixCSR.block_size, MatrixCSR.size_local, MatrixCSR.num_ghosts. simpl.
  fold A bs0 bs1.
  replace (Z.of_nat _ + Z.of_nat _)%Z with nrows
    by (subst nrows; unfold local_rows; lia).
  replace (Z.of_nat (cpp.IndexMap.size_local (cpp.MatrixCSR.index_map1 A)) +
           Z.of_nat (cpp.IndexMap.num_ghosts (cpp.MatrixCSR.index_map1 A)))%Z
    with ncols by (subst ncols; unfold local_cols; lia).
  done.
Qed.

Lemma to_scipy_owned self :
  let A := MatrixCSR._cpp_object self in
  let bs0 := Z.of_nat (cpp.MatrixCSR.bs A).1 in
  let bs1 := Z.of_nat (cpp.MatrixCSR.bs A).2 in
  let nrows := Z.of_nat (local_rows A false) in
  let ncols := Z.of_nat (local_cols A) in
  MatrixCSR.to_scipy self false =
    nnzlocal ← ndarray.getitem (MatrixCSR.indptr self) nrows;
    let data := ndarray.slice_to (MatrixCSR.data self) (np.wrap64 (bs0 * bs1 * nnzlocal)) in
    let indices := ndarray.slice_to (MatrixCSR.indices self) nnzlocal in
    let indptr := ndarray.slice_to (MatrixCSR.indptr self) (nrows + 1) in
    if ((bs0 =? 1) && (bs1 =? 1))%Z then
      Ok (scipy.csr_matrix data indices indptr (nrows, ncols))
    else
      d ← ndarray.reshape3 data bs0 bs1;
      Ok (scipy.bsr_matrix d indices indptr ((bs0 * nrows)%Z, (bs1 * ncols)%Z)).
Proof.
  intros A bs0 bs1 nrows ncols.
  unfold MatrixCSR.to_scipy, MatrixCSR.index_map, cpp.MatrixCSR.index_map,
    MatrixCSR.block_size, MatrixCSR.size_local, MatrixCSR.num_ghosts. simpl.
  fold A bs0 bs1.
  replace (Z.of_nat (cpp.IndexMap.size_local (cpp.MatrixCSR.index_map0 A))) with nrows
    by (subst nrows; unfold local_rows; lia).
  replace (Z.of_nat (cpp.IndexMap.size_local (cpp.MatrixCSR.index_map1 A)) +
           Z.of_nat (cpp.IndexMap.num_ghosts (cpp.MatrixCSR.index_map1 A)))%Z
    with ncols by (subst ncols; unfold local_cols; lia).
  destruct (ndarray.getitem _ _); done.
Qed.

Lemma getitem_nat {A} (a : list A) (i : nat) :
  ndarray.getitem a (Z.of_nat i) =
    match a !! i with Some x => Ok x | None => Raise IndexError end.
Proof.
  unfold ndarray.getitem.
  destruct (Z.ltb_spec (Z.of_nat i) 0) as [?|_]; [lia|].
  destruct (Z.leb_spec 0 (Z.of_nat i)) as [_|?]; [|lia].
  destruct (Z.ltb_spec (Z.of_nat i) (Z.of_nat (length a))) as [Hlt|Hge]; simpl.
  - by rewrite Nat2Z.id.
  - rewrite lookup_ge_None_2; [done|lia].
Qed.

End to_scipy_cases.

Lemma reshape3_Raise {A} (a : list A) (d0 d1 : Z) e :
  ndarray.reshape3 a d0 d1 = Raise e → e = ValueError.
Proof. unfold ndarray.reshape3. case_match; congruence. Qed.

Section to_scipy_edges.
Context {T : Type} `{Scalar T}.
Implicit Types (self : MatrixCSR.t T) (m : scipy.spmatrix T).

Lemma block_sizes_one (A : cpp.MatrixCSR.t T) :
  ((Z.of_nat (cpp.MatrixCSR.bs A).1 =? 1) && (Z.of_nat (cpp.MatrixCSR.bs A).2 =? 1))%Z = true
  ↔ cpp.MatrixCSR.bs A = (1, 1).
Proof.
  destruct (cpp.MatrixCSR.bs A) as [b0 b1]. simpl.
  rewrite andb_true_iff, !Z.eqb_eq. split.
  - intros [? ?]. f_equal; lia.
  - intros [= -> ->]. done.
Qed.

(** X1. The exceptions of [to_scipy] up to the call of the SciPy
    constructor, whatever the native arrays hold.  With [ghosted=False]
    the call raises [IndexError], at [self.indptr[nrows]], exactly when
    [indptr] has at most [size_local] entries.  The only other exception
    is the [ValueError] of [reshape], which only the block case (block
    sizes not both one) can raise; no [IndexError] arises with
    [ghosted=True]. *)
Theorem to_scipy_raises self (ghosted : bool) :
  let A := MatrixCSR._cpp_object self in
  (MatrixCSR.to_scipy self false = Raise IndexError ↔
     length (MatrixCSR.indptr self) ≤ cpp.IndexMap.size_local (cpp.MatrixCSR.index_map0 A)) ∧
  (∀ e, MatrixCSR.to_scipy self ghosted = Raise e →
     e = IndexError ∧ ghosted = false ∨ e = ValueError ∧ cpp.MatrixCSR.bs A ≠ (1, 1)).
Proof.
  intros A. split.
  - rewrite to_scipy_owned. fold A. unfold local_rows. rewrite Nat.add_0_r, getitem_nat.
    destruct (MatrixCSR.indptr self !! _) as [k|] eqn:Hk; simpl.
    + apply lookup_lt_Some in Hk.
      destruct (_ && _)%Z; [split; [done|lia]|].
      destruct (ndarray.reshape3 _ _ _) as [d|e] eqn:Hd; simpl; [split; [done|lia]|].
      apply reshape3_Raise in Hd as ->. split; [done|lia].
    + apply lookup_ge_None_1 in Hk. done.
  - intros e. destruct ghosted.
    + rewrite to_scipy_ghosted. fold A.
      destruct (_ && _)%Z eqn:Hbs; [done|].
      destruct (ndarray.reshape3 _ _ _) as [d|e'] eqn:Hd; simpl; [done|].
      apply reshape3_Raise in Hd as ->. intros [= <-]. right. split; [done|].
      intros Hone%block_sizes_one. congruence.
    + rewrite to_scipy_owned. fold A. unfold local_rows. rewrite Nat.add_0_r, getitem_nat.
      destruct (MatrixCSR.indptr self !! _) as [k|] eqn:Hk; simpl.
      * destruct (_ && _)%Z eqn:Hbs; [done|].
        destruct (ndarray.reshape3 _ _ _) as [d|e'] eqn:Hd; simpl; [done|].
        apply reshape3_Raise in Hd as ->. intros [= <-]. right. split; [done|].
        intros Hone%block_sizes_one. congruence.
      * intros [= <-]. by left.
Qed.

(** X2. Whenever [to_scipy] gets to construct its result, the class it
    constructs is decided by the block sizes alone: a [csr_matrix] when
    both are one, a [bsr_matrix] otherwise, for either value of
    [ghosted]; and the row dimension it passes is [bs0] times the number
    of owned rows, plus the ghost rows when [ghosted]. *)
Theorem to_scipy_format self (ghosted : bool) m :
  let A := MatrixCSR._cpp_object self in
  MatrixCSR.to_scipy self ghosted = Ok m →
  match m with
  | scipy.csr_matrix _ _ _ _ => cpp.MatrixCSR.bs A = (1, 1)
  | scipy.bsr_matrix _ _ _ _ => cpp.MatrixCSR.bs A ≠ (1, 1)
  end ∧
  (scipy.shape m).1 =
    (Z.of_nat (cpp.MatrixCSR.bs A).1 * Z.of_nat (local_rows A ghosted))%Z.
Proof.
  intros A.
  assert (Hcase : ∀ (d : list T) i p nrows ncols,
    (if ((Z.of_nat (cpp.MatrixCSR.bs A).1 =? 1) && (Z.of_nat (cpp.MatrixCSR.bs A).2 =? 1))%Z
     then Ok (scipy.csr_matrix d i p (nrows, ncols))
     else d' ← ndarray.reshape3 d (Z.of_nat (cpp.MatrixCSR.bs A).1)
                  (Z.of_nat (cpp.MatrixCSR.bs A).2);
          Ok (scipy.bsr_matrix d' i p
                ((Z.of_nat (cpp.MatrixCSR.bs A).1 * nrows)%Z,
                 (Z.of_nat (cpp.MatrixCSR.bs A).2 * ncols)%Z))) = Ok m →
    match m with
    | scipy.csr_matrix _ _ _ _ => cpp.MatrixCSR.bs A = (1, 1)
    | scipy.bsr_matrix _ _ _ _ => cpp.MatrixCSR.bs A ≠ (1, 1)
    end ∧
    (scipy.shape m).1 = (Z.of_nat (cpp.MatrixCSR.bs A).1 * nrows)%Z).
  { intros d i p nrows ncols.
    destruct (_ && _)%Z eqn:Hbs.
    - intros [= <-]. apply block_sizes_one in Hbs as Hone. split; [done|].
      simpl. rewrite Hone. simpl. lia.
    - destruct (ndarray.reshape3 _ _ _) as [d'|]; simpl; [|done].
      intros [= <-]. split; [|done].
      intros Hone%block_sizes_one. congruence. }
  destruct ghosted.
  - rewrite to_scipy_ghosted. apply Hcase.
  - rewrite to_scipy_owned. fold A.
    destruct (ndarray.getitem _ _) as [k|]; simpl; [|done]. apply Hcase.
Qed.

Lemma to_scipy_Ok_values {d : list T} {i p : list Z} {s s' : Z * Z} {b0 b1 : Z} {m} :
  (if ((b0 =? 1) && (b1 =? 1))%Z then Ok (scipy.csr_matrix d i p s)
   else d' ← ndarray.reshape3 d b0 b1; Ok (scipy.bsr_matrix d' i p s')) = Ok m →
  scipy.values m = d ∧ scipy.indices m = i ∧ scipy.indptr m = p ∧
  scipy.shape m = (if ((b0 =? 1) && (b1 =? 1))%Z then s else s').
Proof.
  destruct (_ && _)%Z.
  - by intros [= <-].
  - destruct (ndarray.reshape3 _ _ _) as [d'|] eqn:Hd; simpl; [|done].
    intros [= <-]. simpl. by apply reshape3_values in Hd as [-> _].
Qed.

(** X3. Leaving the ghost rows out only cuts the arrays short: when
    both calls get to construct their result, the row pointers, the
    column indices and the values that [to_scipy(ghosted=False)] hands
    to SciPy are prefixes of those that [to_scipy(ghosted=True)] hands
    over, and the two shapes have the same number of columns. *)
Theorem to_scipy_owned_prefix self (m_owned m_ghosted : scipy.spmatrix T) :
  MatrixCSR.to_scipy self false = Ok m_owned →
  MatrixCSR.to_scipy self true = Ok m_ghosted →
  scipy.indptr m_owned `prefix_of` scipy.indptr m_ghosted ∧
  scipy.indices m_owned `prefix_of` scipy.indices m_ghosted ∧
  scipy.values m_owned `prefix_of` scipy.values m_ghosted ∧
  (scipy.shape m_owned).2 = (scipy.shape m_ghosted).2.
Proof.
  rewrite to_scipy_owned, to_scipy_ghosted.
  destruct (ndarray.getitem _ _) as [k|]; simpl; [|done].
  intros (-> & -> & -> & ->)%to_scipy_Ok_values (-> & -> & -> & ->)%to_scipy_Ok_values.
  repeat split; try apply slice_to_prefix.
  destruct (_ && _)%Z; done.
Qed.

(** X5. [to_scipy(ghosted=True)] gets to construct its result exactly
    when both block sizes are positive and the length of [data] is a
    multiple of [bs0 * bs1] (always so for block sizes one); and it
    hands the three arrays over whole: [indptr], [indices] and, block by
    block, every scalar of [data] in storage order. *)
Theorem to_scipy_ghosted_whole self :
  let A := MatrixCSR._cpp_object self in
  let bs0 := (cpp.MatrixCSR.bs A).1 in
  let bs1 := (cpp.MatrixCSR.bs A).2 in
  ((∃ m, MatrixCSR.to_scipy self true = Ok m) ↔
     0 < bs0 ∧ 0 < bs1 ∧ length (MatrixCSR.data self) `mod` (bs0 * bs1) = 0) ∧
  (∀ m, MatrixCSR.to_scipy self true = Ok m →
     scipy.indptr m = MatrixCSR.indptr self ∧
     scipy.indices m = MatrixCSR.indices self ∧
     scipy.values m = MatrixCSR.data self).
Proof.
  intros A bs0 bs1. rewrite to_scipy_ghosted. fold A bs0 bs1. split.
  - destruct (_ && _)%Z eqn:Hbs.
    + apply block_sizes_one in Hbs. fold A in Hbs.
      assert (bs0 = 1 ∧ bs1 = 1) as [-> ->] by (subst bs0 bs1; by rewrite Hbs).
      split; [|eauto]. intros _. split; [lia|]. split; [lia|]. apply Nat.mod_1_r.
    + assert (Hmod : (Z.of_nat (length (MatrixCSR.data self)) mod
                       (Z.of_nat bs0 * Z.of_nat bs1) = 0)%Z ↔
                     length (MatrixCSR.data self) `mod` (bs0 * bs1) = 0).
      { rewrite <- Nat2Z.inj_mul, <- Nat2Z.inj_mod. lia. }
      split.
      * intros [m Hm].
        destruct (ndarray.reshape3 _ _ _) as [d|] eqn:Hd; simpl in Hm; [|done].
        assert (Hok : ∃ r, ndarray.reshape3 (MatrixCSR.data self)
                             (Z.of_nat bs0) (Z.of_nat bs1) = Ok r) by eauto.
        apply reshape3_Ok in Hok as (? & ? & ?). split; [lia|]. split; [lia|].
        by apply Hmod.
      * intros (? & ? & ?).
        destruct (proj2 (reshape3_Ok (MatrixCSR.data self) (Z.of_nat bs0) (Z.of_nat bs1)))
          as [d ->]; [|simpl; eauto].
        split; [lia|]. split; [lia|]. by apply Hmod.
  - intros m (-> & -> & -> & _)%to_scipy_Ok_values. done.
Qed.

End to_scipy_edges.

Section to_scipy_invariant.
Context {T : Type} `{Scalar T}.
Implicit Types (self : MatrixCSR.t T) (m : scipy.spmatrix T).

(** X4. On a rank without ghost rows, and with arrays that satisfy the
    invariant of the native class, [ghosted] makes no difference:
    [to_scipy(ghosted=False)] and [to_scipy(ghosted=True)] construct the
    same matrix from the same arrays. *)
Theorem to_scipy_no_ghost_rows self :
  let A := MatrixCSR._cpp_object self in
  cpp.MatrixCSR.wf A →
  cpp.IndexMap.num_ghosts (cpp.MatrixCSR.index_map0 A) = 0 →
  MatrixCSR.to_scipy self false = MatrixCSR.to_scipy self true.
Proof.
  intros A Hwf Hg.
  rewrite !(to_scipy_wf self _ Hwf). fold A.
  assert (Hrows : local_rows A false = local_rows A true)
    by (unfold local_rows; lia).
  unfold local_nnz. by rewrite Hrows.
Qed.

(** X6. A rank that owns no row: with [size_local = 0], row pointers
    that start at 0 and positive block sizes, [to_scipy(ghosted=False)]
    constructs the empty matrix: no row, the full column range, row
    pointers [[0]] and no entries, whatever the ghost rows hold. *)
Theorem to_scipy_no_owned_rows self :
  let A := MatrixCSR._cpp_object self in
  let bs0 := (cpp.MatrixCSR.bs A).1 in
  let bs1 := (cpp.MatrixCSR.bs A).2 in
  cpp.IndexMap.size_local (cpp.MatrixCSR.index_map0 A) = 0 →
  cpp.MatrixCSR.indptr A !! 0 = Some 0 →
  0 < bs0 ∧ 0 < bs1 →
  ∃ m, MatrixCSR.to_scipy self false = Ok m ∧
       scipy.shape m = (0, Z.of_nat bs1 * Z.of_nat (local_cols A))%Z ∧
       scipy.indptr m = [0%Z] ∧ scipy.indices m = [] ∧ scipy.values m = [].
Proof.
  intros A bs0 bs1 Hloc Hfirst [Hb0 Hb1].
  rewrite to_scipy_owned. fold A bs0 bs1.
  assert (Hrows : local_rows A false = 0) by (unfold local_rows; lia).
  assert (Hget : MatrixCSR.indptr self !! 0 = Some 0%Z).
  { unfold MatrixCSR.indptr. fold A. by rewrite list_lookup_fmap, Hfirst. }
  rewrite Hrows, getitem_nat, Hget. simpl.
  rewrite Z.mul_0_r.
  assert (Hd : ndarray.slice_to (MatrixCSR.data self) (np.wrap64 0) = []) by done.
  assert (Hi : ndarray.slice_to (MatrixCSR.indices self) 0 = []) by done.
  assert (Hp : ndarray.slice_to (MatrixCSR.indptr self) 1 = [0%Z]).
  { unfold MatrixCSR.indptr. fold A.
    destruct (cpp.MatrixCSR.indptr A) as [|p0 ps]; [done|]. by injection Hfirst as ->. }
  change (Z.of_nat 0 + 1)%Z with 1%Z. change (Z.of_nat 0) with 0%Z.
  rewrite Hd, Hi, Hp.
  destruct (_ && _)%Z eqn:Hbs.
  - apply andb_true_iff in Hbs as [_ Hb%Z.eqb_eq]. rewrite Hb.
    eexists. split; [done|]. simpl. repeat split. f_equal. lia.
  - unfold ndarray.reshape3. simpl.
    destruct (Z.ltb_spec 0 (Z.of_nat bs0)); [|lia].
    destruct (Z.ltb_spec 0 (Z.of_nat bs1)); [|lia].
    simpl. rewrite !Nat2Z.id.
    rewrite Nat.Div0.div_0_l. simpl.
    eexists. split; [done|]. simpl. repeat split. f_equal. lia.
Qed.

(** X7. For arrays that satisfy the invariant of the native class, the
    row pointers that [to_scipy] hands to SciPy fit the index array it
    hands over, for either value of [ghosted]: they do not decrease,
    each lies between 0 and the number of column indices, and the last
    one, at the number of rows kept, is that number.  No row of the
    result refers to an entry that was cut off. *)
Theorem to_scipy_row_pointers self (ghosted : bool) m :
  let A := MatrixCSR._cpp_object self in
  cpp.MatrixCSR.wf A →
  MatrixCSR.to_scipy self ghosted = Ok m →
  (∀ i lo hi, scipy.indptr m !! i = Some lo → scipy.indptr m !! S i = Some hi →
              (lo ≤ hi)%Z) ∧
  Forall (λ p, (0 ≤ p ≤ Z.of_nat (length (scipy.indices m)))%Z) (scipy.indptr m) ∧
  scipy.indptr m !! local_rows A ghosted = Some (Z.of_nat (length (scipy.indices m))).
Proof.
  intros A Hwf Hm.
  destruct (to_scipy_arrays self ghosted m Hwf Hm) as (Hp & Hi & _). fold A in Hp, Hi.
  destruct (local_nnz_le A ghosted Hwf) as (Hk & Hle & _).
  assert (Hlen : length (scipy.indices m) = local_nnz A ghosted).
  { rewrite Hi. unfold MatrixCSR.indices. fold A. rewrite length_take, length_fmap. lia. }
  rewrite Hlen, Hp. unfold MatrixCSR.indptr. fold A. rewrite <- fmap_take.
  split; [|split].
  - intros i lo hi.
    rewrite !list_lookup_fmap.
    intros (a & [Ha _]%lookup_take_Some & ->)%fmap_Some
           (b & [Hb _]%lookup_take_Some & ->)%fmap_Some.
    pose proof (cpp.MatrixCSR.wf_indptr_mono A Hwf i a b Ha Hb). lia.
  - apply Forall_fmap, Forall_lookup. intros i a [Ha Hi']%lookup_take_Some. simpl.
    pose proof (indptr_mono A i (local_rows A ghosted) a _ Hwf ltac:(lia) Ha Hk). lia.
  - rewrite list_lookup_fmap, lookup_take_lt by lia. by rewrite Hk.
Qed.

End to_scipy_invariant.

(** ** Values and blocks *)

Section to_scipy_values_facts.
Context {T : Type} `{Scalar T}.
Implicit Types (self : MatrixCSR.t T) (m : scipy.spmatrix T).

Lemma to_scipy_bsr_data self (ghosted : bool) d i p s :
  let A := MatrixCSR._cpp_object self in
  MatrixCSR.to_scipy self ghosted = Ok (scipy.bsr_matrix d i p s) →
  ∃ data_, data_ `prefix_of` MatrixCSR.data self ∧
           ndarray.reshape3 data_ (Z.of_nat (cpp.MatrixCSR.bs A).1)
             (Z.of_nat (cpp.MatrixCSR.bs A).2) = Ok d.
Proof.
  intros A.
  assert (Hcase : ∀ (data_ : list T) i' p' s1 s2,
    (if ((Z.of_nat (cpp.MatrixCSR.bs A).1 =? 1) && (Z.of_nat (cpp.MatrixCSR.bs A).2 =? 1))%Z
     then Ok (scipy.csr_matrix data_ i' p' s1)
     else d' ← ndarray.reshape3 data_ (Z.of_nat (cpp.MatrixCSR.bs A).1)
                  (Z.of_nat (cpp.MatrixCSR.bs A).2);
          Ok (scipy.bsr_matrix d' i' p' s2)) = Ok (scipy.bsr_matrix d i p s) →
    ndarray.reshape3 data_ (Z.of_nat (cpp.MatrixCSR.bs A).1)
      (Z.of_nat (cpp.MatrixCSR.bs A).2) = Ok d).
  { intros data_ i' p' s1 s2. destruct (_ && _)%Z; [done|].
    destruct (ndarray.reshape3 _ _ _) as [d'|]; simpl; [|done]. by intros [= <- _ _ _]. }
  destruct ghosted.
  - rewrite to_scipy_ghosted. fold A. intros Hd%Hcase. eauto.
  - rewrite to_scipy_owned. fold A.
    destruct (ndarray.getitem _ _) as [k|]; simpl; [|done].
    intros Hd%Hcase. eexists. split; [apply slice_to_prefix|exact Hd].
Qed.

(** X13. The layout of the blocks.  In the block case, the scalar at
    row [a], column [b] of block [k] of the three-dimensional array that
    [to_scipy] hands to SciPy is [data[k * bs0 * bs1 + a * bs1 + b]] of
    the matrix, with [a < bs0] and [b < bs1]: blocks in storage order,
    each row-major, for either value of [ghosted]. *)
Theorem to_scipy_block_layout self (ghosted : bool) d i p s k blk a row b v :
  let A := MatrixCSR._cpp_object self in
  let bs0 := (cpp.MatrixCSR.bs A).1 in
  let bs1 := (cpp.MatrixCSR.bs A).2 in
  MatrixCSR.to_scipy self ghosted = Ok (scipy.bsr_matrix d i p s) →
  d !! k = Some blk → blk !! a = Some row → row !! b = Some v →
  a < bs0 ∧ b < bs1 ∧
  MatrixCSR.data self !! (k * (bs0 * bs1) + a * bs1 + b) = Some v.
Proof.
  intros A bs0 bs1 (data_ & Hpre & Hd)%to_scipy_bsr_data Hblk Hrow Hv.
  fold A bs0 bs1 in Hd.
  assert (Hok : ∃ r, ndarray.reshape3 data_ (Z.of_nat bs0) (Z.of_nat bs1) = Ok r) by eauto.
  apply reshape3_Ok in Hok as (H0 & H1 & Hmod).
  unfold ndarray.reshape3 in Hd.
  destruct (Z.ltb_spec 0 (Z.of_nat bs0)); [|lia].
  destruct (Z.ltb_spec 0 (Z.of_nat bs1)); [|lia].
  rewrite Hmod in Hd. simpl in Hd. rewrite !Nat2Z.id in Hd. injection Hd as <-.
  rewrite list_lookup_fmap in Hblk.
  apply fmap_Some in Hblk as (c & Hc & ->).
  pose proof (lookup_lt_Some _ _ _ Hrow) as Ha. rewrite length_chunks in Ha.
  destruct (chunks_lookup _ _ _ _ _ _ _ Hrow Hv) as [Hb Hcv].
  destruct (chunks_lookup _ _ _ _ _ _ _ Hc Hcv) as [_ Hdv].
  split; [done|]. split; [done|].
  eapply prefix_lookup_Some; [|exact Hpre].
  rewrite <- Hdv. f_equal. lia.
Qed.

(** X12. Values of ghost rows and the two conversions.  For arrays that
    satisfy the invariant of the native class, a write [data[q] = x]
    behind the blocks of the owned rows ([q >= bs0 * bs1 * nnzlocal])
    leaves what [to_scipy(ghosted=False)] constructs unchanged, while
    [to_scipy(ghosted=True)] shows it: the same structure, and the
    values with [x] at position [q]. *)
Theorem to_scipy_ghost_values_hidden self (q : nat) (x : T) :
  let A := MatrixCSR._cpp_object self in
  cpp.MatrixCSR.wf A →
  local_nnz A false * cpp.MatrixCSR.block_len A ≤ q →
  MatrixCSR.to_scipy (write_data self q x) false = MatrixCSR.to_scipy self false ∧
  ∃ m m', MatrixCSR.to_scipy self true = Ok m ∧
          MatrixCSR.to_scipy (write_data self q x) true = Ok m' ∧
          scipy.values m' = <[q := x]> (scipy.values m) ∧
          scipy.indices m' = scipy.indices m ∧
          scipy.indptr m' = scipy.indptr m ∧
          scipy.shape m' = scipy.shape m.
Proof.
  intros A Hwf Hq.
  assert (Hwf' : cpp.MatrixCSR.wf (MatrixCSR._cpp_object (write_data self q x))).
  { apply with_data_wf; [done|]. apply length_insert. }
  split.
  - rewrite (to_scipy_wf self false Hwf), (to_scipy_wf _ false Hwf'). fold A.
    unfold write_data, local_nnz, local_rows, local_cols, cpp.MatrixCSR.block_len in *.
    simpl. fold A. unfold MatrixCSR.data. fold A.
    rewrite !take_insert_ge by done. done.
  - destruct (to_scipy_returns self true Hwf) as [m Hm].
    destruct (to_scipy_returns _ true Hwf') as [m' Hm'].
    exists m, m'. split; [done|]. split; [done|].
    destruct (to_scipy_arrays self true m Hwf Hm) as (Hp & Hi & Hs).
    destruct (to_scipy_arrays _ true m' Hwf' Hm') as (Hp' & Hi' & Hs').
    destruct (to_scipy_values self true m Hwf Hm) as (Hv & _).
    destruct (to_scipy_values _ true m' Hwf' Hm') as (Hv' & _).
    rewrite Hp, Hi, Hs, Hv, Hp', Hi', Hs', Hv'.
    destruct (local_nnz_le A true Hwf) as (_ & _ & Hfull).
    pose proof (cpp.MatrixCSR.wf_data_length A Hwf) as Hdata.
    unfold write_data, MatrixCSR.indptr, MatrixCSR.indices, local_nnz, local_rows, local_cols,
      cpp.MatrixCSR.block_len in *.
    simpl. fold A. unfold MatrixCSR.data. fold A.
    split; [|done].
    rewrite !take_ge; [done| |]; rewrite ?length_insert, Hdata, Hfull; done.
Qed.

End to_scipy_values_facts.

(** ** The factory functions compared *)

Section factories_related.
Context {T : Type} `{Scalar T}.

(** X9. The two factories agree on the scalar types.  Whenever
    [matrix_csr] accepts a [dtype], [vector] accepts it as well and
    constructs the native class of the same scalar type; and the
    [dtype]s that [vector] accepts while [matrix_csr] raises
    [NotImplementedError] are exactly those of class int8, int32 or
    int64. *)
Theorem factories_agree sp bm map bs dtype (w : world) :
  (∀ A w1, matrix_csr (T:=T) sp bm dtype w = (Ok A, w1) →
     ∃ c c', cpp.la.matrix_scalar c = cpp.la.vector_scalar c' ∧
             w1 = log (Construct_MatrixCSR c) w ∧
             vector (T:=T) map bs dtype w = construct_and_wrap_vector c' map bs w) ∧
  ((∃ x w2, vector (T:=T) map bs dtype w = (Ok x, w2)) ∧
   matrix_csr (T:=T) sp bm dtype w = (Raise (NotImplementedError dtype), w)
   ↔ np.as_class dtype ∈ [np.int8; np.int32; np.int64]).
Proof.
  rewrite matrix_csr_cases, vector_cases. unfold construct_and_wrap.
  split.
  - intros A w1.
    destruct (np.as_class dtype); intros [= <- <-];
      [ exists cpp.la.MatrixCSR_float32, cpp.la.Vector_float32
      | exists cpp.la.MatrixCSR_float64, cpp.la.Vector_float64
      | exists cpp.la.MatrixCSR_complex64, cpp.la.Vector_complex64
      | exists cpp.la.MatrixCSR_complex128, cpp.la.Vector_complex128 ]; done.
  - unfold construct_and_wrap_vector.
    destruct (np.as_class dtype); split.
    all: lazymatch goal with
         | |- _ ∧ _ → _ =>
             intros [(x & w2 & Hv) Hm];
             first [ discriminate Hm | discriminate Hv | by apply (bool_decide_unpack _) ]
         | |- _ ∈ _ → _ =>
             intros Hin;
             first [ by split; [eauto|]
                   | apply (bool_decide_pack _) in Hin; vm_compute in Hin; destruct Hin ]
         end.
Qed.

(** X10. The tests of the two [if]/[elif] chains exclude each other:
    for no [dtype] does [np.issubdtype] hold for two different classes
    among float32, float64, complex64, complex128, int8, int32 and
    int64.  So at most one branch can be taken and the order of the
    tests does not matter. *)
Theorem dtype_tests_exclusive dtype c1 c2 :
  c1 ∈ vector_scalars → c2 ∈ vector_scalars →
  np.issubdtype dtype c1 = true → np.issubdtype dtype c2 = true → c1 = c2.
Proof.
  intros H1 H2. rewrite !issubdtype_concrete by done.
  intros E1%bool_decide_eq_true E2%bool_decide_eq_true. congruence.
Qed.

End factories_related.

(** ** PETSc wrappers over a whole program *)

Lemma created_snoc tr e :
  created (tr ++ [e]) =
    created tr ++ match e with Vec_create v => [v] | _ => [] end.
Proof. unfold created. rewrite omap_app. by destruct e. Qed.

Lemma destroyed_snoc tr e :
  destroyed (tr ++ [e]) =
    destroyed tr ++ match e with Vec_destroy v => [v] | _ => [] end.
Proof. unfold destroyed. rewrite omap_app. by destruct e. Qed.

Section program_facts.
Context {T : Type} `{Scalar T}.
Implicit Types (vs : list (option (Vector.t T))) (w : world).

Lemma cached_insert vs i (o o' : option (Vector.t T)) :
  vs !! i = Some o →
  ∃ l1 l2, cached vs = l1 ++ option_list (o ≫= Vector._petsc_x) ++ l2 ∧
           cached (<[i := o']> vs) = l1 ++ option_list (o' ≫= Vector._petsc_x) ++ l2.
Proof.
  intros Hi. pose proof (lookup_lt_Some _ _ _ Hi) as Hlt.
  exists (cached (take i vs)), (cached (drop (S i) vs)). split.
  - rewrite <- (take_drop_middle vs i o Hi) at 1. unfold cached.
    rewrite omap_app. simpl. by destruct (o ≫= _).
  - rewrite insert_take_drop by done. unfold cached.
    rewrite omap_app. simpl. by destruct (o' ≫= _).
Qed.

Lemma run_command_balanced c vs w :
  balanced vs w → balanced (run_command c vs w).1 (run_command c vs w).2.
Proof.
  intros (Hnd & Hperm & Hfresh). destruct c as [x|i|i x|i]; simpl.
  - unfold balanced, cached. rewrite omap_app. simpl. rewrite app_nil_r. done.
  - destruct (vs !! i) as [[self|]|] eqn:Hi; [|done..].
    unfold Vector.petsc_vec. destruct (has_petsc4py w) eqn:Hw; [|done].
    destruct (Vector._petsc_x self) as [v|] eqn:Hc; simpl.
    { rewrite list_insert_id by done. done. }
    destruct (cached_insert vs i (Some self)
                (Some {| Vector._cpp_object := Vector._cpp_object self;
                         Vector._petsc_x := Some {| PETSc.handle := next_handle w |} |}) Hi)
      as (l1 & l2 & Hvs & Hvs').
    simpl in Hvs, Hvs'. rewrite Hc in Hvs. simpl in Hvs.
    set (v := {| PETSc.handle := next_handle w |}) in *.
    assert (Hnew : v ∉ created (trace w)).
    { intros Hin. rewrite list.Forall_forall in Hfresh. apply Hfresh in Hin. simpl in Hin. lia. }
    unfold balanced. simpl. rewrite created_snoc, destroyed_snoc, app_nil_r, Hvs'.
    rewrite Hvs in Hnd, Hperm. split; [|split].
    + rewrite Hperm in Hnew.
      assert (Hp : destroyed (trace w) ++ l1 ++ [v] ++ l2 ≡ₚ
                   v :: (destroyed (trace w) ++ l1 ++ l2)) by solve_Permutation.
      rewrite Hp. by constructor.
    + rewrite Hperm. solve_Permutation.
    + apply Forall_app. split.
      * eapply Forall_impl; [|exact Hfresh]. simpl. intros; lia.
      * constructor; [simpl; lia|constructor].
  - destruct (vs !! i) as [[self|]|] eqn:Hi; [|done..]. simpl.
    destruct (cached_insert vs i (Some self) (Some (Vector.with_cpp_object self x)) Hi)
      as (l1 & l2 & Hvs & Hvs').
    assert (Hsame : cached (<[i := Some (Vector.with_cpp_object self x)]> vs) = cached vs)
      by (by rewrite Hvs, Hvs').
    unfold balanced. by rewrite Hsame.
  - destruct (vs !! i) as [[self|]|] eqn:Hi; [|done..].
    destruct (cached_insert vs i (Some self) None Hi) as (l1 & l2 & Hvs & Hvs').
    simpl in Hvs, Hvs'. unfold Vector.__del__.
    destruct (Vector._petsc_x self) as [v|] eqn:Hc; simpl in *.
    + unfold balanced. simpl. rewrite created_snoc, destroyed_snoc, app_nil_r, Hvs'.
      rewrite Hvs in Hnd, Hperm. split; [|split; [|done]].
      * assert (Hp : (destroyed (trace w) ++ [v]) ++ l1 ++ l2 ≡ₚ
                     destroyed (trace w) ++ l1 ++ [v] ++ l2) by solve_Permutation.
        by rewrite Hp.
      * rewrite Hperm. solve_Permutation.
    + unfold balanced. simpl. by rewrite Hvs', <- Hvs.
Qed.

Lemma run_program_balanced cs vs w :
  balanced vs w → balanced (run_program cs vs w).1 (run_program cs vs w).2.
Proof.
  unfold run_program. revert vs w.
  induction cs as [|c cs IH]; intros vs w Hb; simpl; [done|].
  destruct (run_command c vs w) as [vs' w'] eqn:Hstep.
  apply (IH vs' w'). pose proof (run_command_balanced c vs w Hb) as Hb'.
  by rewrite Hstep in Hb'.
Qed.

(** X11. Wrappers over a whole program.  For any sequence of
    constructions, [petsc_vec] reads, changes of the native objects and
    deletions, over any number of vectors: no PETSc wrapper is created
    twice; none is destroyed twice; none is destroyed while a live
    vector still holds it; and the wrappers created are exactly those
    destroyed together with those the live vectors hold.  Once every
    vector is deleted, each wrapper created has been destroyed once. *)
Theorem petsc_wrappers_balanced (cs : list (command (T:=T))) (available : bool) (n : nat) :
  let w0 := {| has_petsc4py := available; next_handle := n; trace := [] |} in
  let vs := (run_program cs [] w0).1 in
  let w := (run_program cs [] w0).2 in
  NoDup (created (trace w)) ∧
  NoDup (destroyed (trace w) ++ cached vs) ∧
  created (trace w) ≡ₚ destroyed (trace w) ++ cached vs ∧
  (Forall (λ o, o = None) vs → created (trace w) ≡ₚ destroyed (trace w)).
Proof.
  intros w0 vs w.
  destruct (run_program_balanced cs [] w0) as (Hnd & Hperm & _).
  { split; [constructor|]. split; [done|constructor]. }
  fold vs w in Hnd, Hperm. split; [by rewrite Hperm|]. split; [done|]. split; [done|].
  intros Hall. rewrite Hperm.
  assert (Hnone : cached vs = []).
  { clear -Hall. induction Hall as [|o vs' -> _ IH]; [done|]. exact IH. }
  by rewrite Hnone, app_nil_r.
Qed.

End program_facts.

(** ** The properties on the example objects *)

Example to_scipy_edge_examples :
  MatrixCSR.to_scipy (MatrixCSR.__init__ example_short) false = Raise IndexError ∧
  MatrixCSR.to_scipy (MatrixCSR.__init__ example_ragged) true = Raise ValueError ∧
  MatrixCSR.to_scipy (MatrixCSR.__init__ example_ghost_only) false =
    Ok (scipy.bsr_matrix [] [] [0%Z] (0, 1)%Z) ∧
  MatrixCSR.to_scipy (MatrixCSR.__init__ example_ghost_only) true =
    Ok (scipy.bsr_matrix [[[5]; [6]]] [0] [0; 1] (2, 1))%Z.
Proof. repeat split. Qed.

Lemma to_scipy_raises_witness :
  MatrixCSR.to_scipy (MatrixCSR.__init__ example_short) false = Raise IndexError ∧
  cpp.MatrixCSR.bs example_ragged ≠ (1, 1).
Proof.
  split.
  - apply (to_scipy_raises (MatrixCSR.__init__ example_short) false). simpl. lia.
  - destruct (to_scipy_raises (MatrixCSR.__init__ example_ragged) true) as [_ Hclass].
    destruct (Hclass ValueError eq_refl) as [[Hne _]|[_ Hbs]]; [discriminate Hne|exact Hbs].
Defined.

Lemma to_scipy_format_witness :
  ∃ m, MatrixCSR.to_scipy (MatrixCSR.__init__ example_bsr) true = Ok m ∧
       match m with
       | scipy.csr_matrix _ _ _ _ => cpp.MatrixCSR.bs example_bsr = (1, 1)
       | scipy.bsr_matrix _ _ _ _ => cpp.MatrixCSR.bs example_bsr ≠ (1, 1)
       end ∧
       (scipy.shape m).1 = (2 * 3)%Z.
Proof.
  eexists. split; [reflexivity|].
  exact (to_scipy_format (MatrixCSR.__init__ example_bsr) true _ eq_refl).
Defined.

Lemma to_scipy_owned_prefix_witness :
  ∃ m_owned m_ghosted,
    MatrixCSR.to_scipy (MatrixCSR.__init__ example_csr) false = Ok m_owned ∧
    MatrixCSR.to_scipy (MatrixCSR.__init__ example_csr) true = Ok m_ghosted ∧
    scipy.indptr m_owned `prefix_of` scipy.indptr m_ghosted ∧
    scipy.indices m_owned `prefix_of` scipy.indices m_ghosted ∧
    scipy.values m_owned `prefix_of` scipy.values m_ghosted ∧
    (scipy.shape m_owned).2 = (scipy.shape m_ghosted).2.
Proof.
  eexists _, _. split; [reflexivity|]. split; [reflexivity|].
  exact (to_scipy_owned_prefix (MatrixCSR.__init__ example_csr) _ _ eq_refl eq_refl).
Defined.

Lemma to_scipy_no_ghost_rows_witness :
  cpp.MatrixCSR.wf (MatrixCSR._cpp_object example_rank1) ∧
  cpp.IndexMap.num_ghosts
    (cpp.MatrixCSR.index_map0 (MatrixCSR._cpp_object example_rank1)) = 0 ∧
  MatrixCSR.to_scipy example_rank1 false = MatrixCSR.to_scipy example_rank1 true.
Proof.
  split; [exact example_rank1_wf|]. split; [reflexivity|].
  exact (to_scipy_no_ghost_rows example_rank1 example_rank1_wf eq_refl).
Defined.

Lemma to_scipy_ghosted_whole_witness :
  (∃ m, MatrixCSR.to_scipy (MatrixCSR.__init__ example_bsr) true = Ok m) ∧
  ¬ (∃ m, MatrixCSR.to_scipy (MatrixCSR.__init__ example_ragged) true = Ok m).
Proof.
  split.
  - apply (to_scipy_ghosted_whole (MatrixCSR.__init__ example_bsr)). simpl.
    split; [lia|]. split; [lia|reflexivity].
  - intros Hm. apply (to_scipy_ghosted_whole (MatrixCSR.__init__ example_ragged)) in Hm.
    simpl in Hm. destruct Hm as (_ & _ & Hmod). discriminate Hmod.
Defined.

Lemma to_scipy_no_owned_rows_witness :
  cpp.IndexMap.size_local (cpp.MatrixCSR.index_map0 example_ghost_only) = 0 ∧
  cpp.MatrixCSR.indptr example_ghost_only !! 0 = Some 0 ∧
  ∃ m, MatrixCSR.to_scipy (MatrixCSR.__init__ example_ghost_only) false = Ok m ∧
       scipy.shape m = (0, 1 * 1)%Z ∧
       scipy.indptr m = [0%Z] ∧ scipy.indices m = [] ∧ scipy.values m = [].
Proof.
  split; [reflexivity|]. split; [reflexivity|].
  exact (to_scipy_no_owned_rows (MatrixCSR.__init__ example_ghost_only)
           eq_refl eq_refl (conj (le_S _ _ (le_n 1)) (le_n 1))).
Defined.

Lemma to_scipy_row_pointers_witness :
  cpp.MatrixCSR.wf example_csr ∧
  ∃ m, MatrixCSR.to_scipy (MatrixCSR.__init__ example_csr) false = Ok m ∧
       Forall (λ p, (0 ≤ p ≤ Z.of_nat (length (scipy.indices m)))%Z) (scipy.indptr m) ∧
       scipy.indptr m !! 2 = Some (Z.of_nat (length (scipy.indices m))).
Proof.
  split; [exact example_csr_wf|].
  eexists. split; [reflexivity|].
  destruct (to_scipy_row_pointers (MatrixCSR.__init__ example_csr) false _
              example_csr_wf eq_refl) as (_ & Hbound & Hlast).
  split; [exact Hbound|exact Hlast].
Defined.

Lemma dtype_tests_exclusive_witness :
  np.float64 ∈ vector_scalars ∧
  np.issubdtype np.py_float np.float64 = true ∧
  np.float64 = np.float64.
Proof.
  assert (Hin : np.float64 ∈ vector_scalars) by (by apply (bool_decide_unpack _)).
  split; [exact Hin|]. split; [reflexivity|].
  exact (dtype_tests_exclusive np.py_float np.float64 np.float64 Hin Hin eq_refl eq_refl).
Defined.

Lemma to_scipy_ghost_values_hidden_witness :
  cpp.MatrixCSR.wf example_csr ∧
  local_nnz example_csr false * cpp.MatrixCSR.block_len example_csr ≤ 4 ∧
  MatrixCSR.to_scipy (write_data (MatrixCSR.__init__ example_csr) 4 99%Z) false =
    MatrixCSR.to_scipy (MatrixCSR.__init__ example_csr) false.
Proof.
  split; [exact example_csr_wf|]. split; [exact (le_n 4)|].
  exact (proj1 (to_scipy_ghost_values_hidden (MatrixCSR.__init__ example_csr) 4 99%Z
                  example_csr_wf (le_n 4))).
Defined.

Lemma to_scipy_block_layout_witness :
  MatrixCSR.to_scipy (MatrixCSR.__init__ example_bsr) false =
    Ok (scipy.bsr_matrix
          [[[10]; [11]]; [[20]; [21]]; [[30]; [31]]; [[40]; [41]]]
          [0; 1; 1; 2] [0; 2; 4] (4, 3))%Z ∧
  1 < 2 ∧ 0 < 1 ∧
  MatrixCSR.data (MatrixCSR.__init__ example_bsr) !! (1 * (2 * 1) + 1 * 1 + 0) = Some 21%Z.
Proof.
  split; [reflexivity|].
  exact (to_scipy_block_layout (MatrixCSR.__init__ example_bsr) false
           _ _ _ _ 1 [[20]; [21]]%Z 1 [21]%Z 0 21%Z eq_refl eq_refl eq_refl eq_refl).
Defined.

(** Two vectors whose lives overlap: the first is read twice and
    deleted while the second, read once, is still live. *)
Example run_program_example (x y : cpp.Vector.t Z) :
  let w0 := {| has_petsc4py := true; next_handle := 3; trace := [] |} in
  let '(vs, w) :=
    run_program [new_vector x; new_vector y; read_petsc_vec 0; read_petsc_vec 1;
                 change_native 0 y; read_petsc_vec 0; del_vector 0] [] w0 in
  trace w = [Vec_create {| PETSc.handle := 3 |}; Vec_create {| PETSc.handle := 4 |};
             Vec_destroy {| PETSc.handle := 3 |}] ∧
  cached vs = [{| PETSc.handle := 4 |}].
Proof. split; reflexivity. Qed.
